(** * vscode-gitlens: the git shell layer and the context tracker

    A shallow embedding of the second and third units of
    [src/commands/diffWithPrevious.ts]: the git shell (the sentinel and
    path helpers of [class Git], the single-flight executor
    [gitCommand]/[gitCommandCore], [Git.show]) and [GitContextTracker]
    (the blameability state machine), with the properties the
    specification states about them.

    JavaScript strings are modelled as [string]: sequences of code units
    below 256.  Regular expressions are embedded as syntax trees and
    [RegExp.prototype.test] as a derivative matcher; a declarative
    semantics is proved equivalent to it further down.  Asynchronous
    functions are cut at their [await]s: the part before is one function,
    the part after is another that takes what the promise settled with. *)

From Stdlib Require Import String Ascii List Bool Arith ZArith Lia.
From stdpp Require Import gmap strings list.
From stdpp Require Import pretty.
Import ListNotations.

Local Open Scope stdpp_scope.

#[local] Arguments String.append !s1 s2 : simpl nomatch.

(** ** JavaScript string primitives *)

Module Js.

(** [s.substring(n)] for [0 <= n]. *)
Fixpoint substring_from (n : nat) (s : string) : string :=
  match n, s with
  | O, _ => s
  | S _, EmptyString => EmptyString
  | S n', String _ s' => substring_from n' s'
  end.

(** [s.substring(0, n)] for [0 <= n]. *)
Fixpoint substring_to (n : nat) (s : string) : string :=
  match n, s with
  | O, _ => EmptyString
  | S _, EmptyString => EmptyString
  | S n', String c s' => String c (substring_to n' s')
  end.

(** [s.indexOf(c)] for a one-character needle: the first position, or -1. *)
Fixpoint indexOf (c : ascii) (s : string) : Z :=
  match s with
  | EmptyString => (-1)%Z
  | String d s' =>
      if Ascii.eqb d c then 0%Z
      else let i := indexOf c s' in if (i <? 0)%Z then (-1)%Z else (i + 1)%Z
  end.

(** [s.startsWith(p)]. *)
Fixpoint startsWith (p s : string) : bool :=
  match p, s with
  | EmptyString, _ => true
  | String _ _, EmptyString => false
  | String a p', String b s' => Ascii.eqb a b && startsWith p' s'
  end.

(** The last code unit of a string, if any. *)
Fixpoint last_char (s : string) : option ascii :=
  match s with
  | EmptyString => None
  | String c EmptyString => Some c
  | String _ s' => last_char s'
  end.

(** [s.endsWith(c)] for a one-character needle. *)
Definition endsWith_char (c : ascii) (s : string) : bool :=
  match last_char s with
  | Some d => Ascii.eqb d c
  | None => false
  end.

(** Lower-casing of one code unit below 256: A-Z and the Latin-1 capitals
    (U+00C0..U+00DE without the multiplication sign U+00D7) move up by 32. *)
Definition lower_char (c : ascii) : ascii :=
  let n := nat_of_ascii c in
  if ((65 <=? n) && (n <=? 90)) || ((192 <=? n) && (n <=? 222) && negb (n =? 215))
  then ascii_of_nat (n + 32) else c.

(** [s.toLowerCase()] on strings whose code units are all below 256:
    there it works unit by unit and keeps the length.  [Utf16.toLowerCase]
    below goes beyond them. *)
Fixpoint toLowerCase (s : string) : string :=
  match s with
  | EmptyString => EmptyString
  | String c s' => String (lower_char c) (toLowerCase s')
  end.

(** [s.replace(/\\/g, '/')]. *)
Fixpoint replace_backslashes (s : string) : string :=
  match s with
  | EmptyString => EmptyString
  | String c s' =>
      String (if Ascii.eqb c "\"%char then "/"%char else c) (replace_backslashes s')
  end.

(** [l.join(sep)]. *)
Fixpoint join (sep : string) (l : list string) : string :=
  match l with
  | [] => EmptyString
  | [x] => x
  | x :: l' => x +:+ sep +:+ join sep l'
  end.

(** A template literal's rendering of a [string | undefined] hole. *)
Definition tpl (o : option string) : string :=
  match o with
  | Some s => s
  | None => "undefined"
  end.

(** Every code unit of [s] satisfies [p]. *)
Fixpoint every (p : ascii -> bool) (s : string) : bool :=
  match s with
  | EmptyString => true
  | String c s' => p c && every p s'
  end.

(** [s.split(sep)] for a non-empty separator. *)
Fixpoint split_go (sep : string) (cur : string) (s : string) (skip : nat) : list string :=
  match s with
  | EmptyString => [cur]
  | String c s' =>
      match skip with
      | S k => split_go sep cur s' k
      | O =>
          if startsWith sep s
          then cur :: split_go sep EmptyString s' (String.length sep - 1)
          else split_go sep (cur +:+ String c EmptyString) s' 0
      end
  end.

Definition split (sep s : string) : list string := split_go sep EmptyString s 0.

(** [s.slice(start, end)] for [0 <= start], [0 <= end]. *)
Definition slice (start end_ : nat) (s : string) : string :=
  substring_to (end_ - start) (substring_from start s).

(** [s.charCodeAt(i) === 47]. *)
Definition is_slash_at (i : nat) (s : string) : bool :=
  match String.get i s with
  | Some c => Ascii.eqb c "/"
  | None => false
  end.

End Js.

(** ** Node's [path.dirname] and [path.basename] (POSIX variant)

    The two loops of [posix.dirname] and [posix.basename] in Node's
    [lib/path.js], index by index.  [path] is [path.posix] on every host
    but Windows; there it is [path.win32], which also takes the backslash
    for a separator and knows drive and UNC roots, and is not modelled:
    what is proved through these two functions is proved for POSIX
    hosts. *)

Module Path.

(** [for (i = path.length - 1; i >= 1; --i)]: the index of the slash that
    ends the directory part, if the loop breaks. *)
Fixpoint dirname_loop (path : string) (i : nat) (matchedSlash : bool) : option nat :=
  match i with
  | O => None
  | S i' =>
      if Js.is_slash_at i path
      then if negb matchedSlash then Some i else dirname_loop path i' matchedSlash
      else dirname_loop path i' false
  end.

Definition dirname (path : string) : string :=
  if (String.length path =? 0)%nat then "."
  else
    let hasRoot := Js.is_slash_at 0 path in
    match dirname_loop path (String.length path - 1) true with
    | None => if hasRoot then "/" else "."
    | Some end_ =>
        if hasRoot && (end_ =? 1)%nat then "//" else Js.slice 0 end_ path
    end.

(** [for (i = path.length - 1; i >= 0; --i)] with [n = i + 1]: the final
    [(start, end)]. *)
Fixpoint basename_loop (path : string) (n : nat) (matchedSlash : bool)
    (end_ : option nat) : nat * option nat :=
  match n with
  | O => (0%nat, end_)
  | S i =>
      if Js.is_slash_at i path
      then if negb matchedSlash then ((i + 1)%nat, end_)
           else basename_loop path i matchedSlash end_
      else
        match end_ with
        | None => basename_loop path i false (Some (i + 1)%nat)
        | Some _ => basename_loop path i matchedSlash end_
        end
  end.

Definition basename (path : string) : string :=
  match basename_loop path (String.length path) true None with
  | (_, None) => ""
  | (start, Some end_) => Js.slice start end_ path
  end.

End Path.

(** ** Regular expressions *)

Module Regex.

Inductive regex : Type :=
| Void
| Eps
| Cls (p : ascii -> bool)
| Cat (r1 r2 : regex)
| Alt (r1 r2 : regex)
| Star (r : regex).

Fixpoint nullable (r : regex) : bool :=
  match r with
  | Void => false
  | Eps => true
  | Cls _ => false
  | Cat r1 r2 => nullable r1 && nullable r2
  | Alt r1 r2 => nullable r1 || nullable r2
  | Star _ => true
  end.

Fixpoint deriv (c : ascii) (r : regex) : regex :=
  match r with
  | Void => Void
  | Eps => Void
  | Cls p => if p c then Eps else Void
  | Cat r1 r2 =>
      if nullable r1 then Alt (Cat (deriv c r1) r2) (deriv c r2)
      else Cat (deriv c r1) r2
  | Alt r1 r2 => Alt (deriv c r1) (deriv c r2)
  | Star r1 => Cat (deriv c r1) (Star r1)
  end.

Fixpoint accepts (r : regex) (s : string) : bool :=
  match s with
  | EmptyString => nullable r
  | String c s' => accepts (deriv c r) s'
  end.

(** The pattern syntax the source uses.  Lazy quantifiers ([??], [*?])
    change which match a backtracking engine finds first, not whether one
    exists, so for [test] they denote the same language as the greedy ones. *)
Definition chr (c : ascii) : regex := Cls (Ascii.eqb c).

Fixpoint lit (s : string) : regex :=
  match s with
  | EmptyString => Eps
  | String c s' => Cat (chr c) (lit s')
  end.

Fixpoint rep (n : nat) (r : regex) : regex :=
  match n with
  | O => Eps
  | S n' => Cat r (rep n' r)
  end.

Definition opt (r : regex) : regex := Alt r Eps.
Definition opt_lazy (r : regex) : regex := Alt Eps r.
Definition star_lazy (r : regex) : regex := Star r.

Definition in_range (lo hi c : ascii) : bool :=
  (nat_of_ascii lo <=? nat_of_ascii c) && (nat_of_ascii c <=? nat_of_ascii hi).

(** [[0-9]], [[0-9a-f]], [[0]]. *)
Definition is_digit (c : ascii) : bool := in_range "0" "9" c.
Definition is_hex (c : ascii) : bool := in_range "0" "9" c || in_range "a" "f" c.
Definition is_zero (c : ascii) : bool := Ascii.eqb c "0".

(** [.]: any code unit that is not a line terminator (LF, CR below 256). *)
Definition is_dot (c : ascii) : bool :=
  negb (Ascii.eqb c (ascii_of_nat 10)) && negb (Ascii.eqb c (ascii_of_nat 13)).

Definition any : regex := Cls (fun _ => true).

(** A regular expression literal: its body and whether it carries [^], [$]
    (no flags, so [$] is the end of the input). *)
Record RegExp : Type := {
  body : regex;
  anchored_start : bool;
  anchored_end : bool
}.

(** [re.test(s)]: some substring allowed by the anchors is in the language. *)
Definition test (re : RegExp) (s : string) : bool :=
  accepts
    (Cat (if anchored_start re then Eps else Star any)
         (Cat (body re) (if anchored_end re then Eps else Star any)))
    s.

(** Declarative semantics. *)
Inductive matches : regex -> string -> Prop :=
| MEps : matches Eps EmptyString
| MCls p c : p c = true -> matches (Cls p) (String c EmptyString)
| MCat r1 r2 s1 s2 :
    matches r1 s1 -> matches r2 s2 -> matches (Cat r1 r2) (s1 +:+ s2)
| MAltL r1 r2 s : matches r1 s -> matches (Alt r1 r2) s
| MAltR r1 r2 s : matches r2 s -> matches (Alt r1 r2) s
| MStar0 r : matches (Star r) EmptyString
| MStarS r s1 s2 :
    matches r s1 -> matches (Star r) s2 -> matches (Star r) (s1 +:+ s2).

End Regex.

(** ** The git shell: sentinels, path helpers, executor, [Git.show] *)

Module Git.
Import Regex.

(** [/^[0-9a-f]{40}(\^[0-9]*?)??( -)?$/] *)
Definition shaRegex : RegExp :=
  {| body :=
       Cat (rep 40 (Cls is_hex))
           (Cat (opt_lazy (Cat (chr "^") (star_lazy (Cls is_digit))))
                (opt (lit " -")));
     anchored_start := true;
     anchored_end := true |}.

(** [/^[0]{40}(\^[0-9]*?)??:$/] *)
Definition stagedUncommittedRegex : RegExp :=
  {| body :=
       Cat (rep 40 (Cls is_zero))
           (Cat (opt_lazy (Cat (chr "^") (star_lazy (Cls is_digit))))
                (chr ":"));
     anchored_start := true;
     anchored_end := true |}.

Definition stagedUncommittedSha : string :=
  "0000000000000000000000000000000000000000:".

(** [/^[0]{40}(\^[0-9]*?)??:??$/] *)
Definition uncommittedRegex : RegExp :=
  {| body :=
       Cat (rep 40 (Cls is_zero))
           (Cat (opt_lazy (Cat (chr "^") (star_lazy (Cls is_digit))))
                (opt_lazy (chr ":")));
     anchored_start := true;
     anchored_end := true |}.

Definition uncommittedSha : string :=
  "0000000000000000000000000000000000000000".

(** The strings of the group [(\^[0-9]*?)??]: nothing, or a caret and digits. *)
Definition is_caret_suffix (g : string) : bool :=
  match g with
  | EmptyString => true
  | String c ds => Ascii.eqb c "^" && Js.every is_digit ds
  end.

Definition isSha (sha : string) : bool := test shaRegex sha.
Definition isStagedUncommitted (sha : string) : bool := test stagedUncommittedRegex sha.
Definition isUncommitted (sha : string) : bool := test uncommittedRegex sha.

(** A 40-hex-based id: forty lower-case hex digits, then nothing or a
    caret and digits (the parent marker). *)
Definition is_hex40_based (id : string) : bool :=
  (String.length (Js.substring_to 40 id) =? 40)%nat
  && Js.every is_hex (Js.substring_to 40 id)
  && is_caret_suffix (Js.substring_from 40 id).

(** [fileName && fileName.replace(/\\/g, '/')]: [undefined] stays
    [undefined], and the empty string stays empty either way. *)
Definition normalizePath (fileName : option string) : option string :=
  match fileName with
  | Some s => Some (Js.replace_backslashes s)
  | None => None
  end.

Definition shortenSha (sha : string) : string :=
  if isStagedUncommitted sha then "index"
  else if isUncommitted sha then ""
  else
    let index := Js.indexOf "^" sha in
    (* This is lame, but assume there is only 1 character after the ^ *)
    if (index >? 6)%Z
    then Js.substring_to 6 sha +:+ Js.substring_from (Z.to_nat index) sha
    else Js.substring_to 8 sha.

(** [splitPath(fileName, repoPath, extract = true): [string, string]].
    The root comes back as [string | undefined]: with no root and
    [extract] false the source hands [repoPath!] through. *)
Definition splitPath (fileName : string) (repoPath : option string)
    (extract : bool) : string * option string :=
  match repoPath with
  | Some (String _ _ as repoPath) =>
      let fileName := Js.replace_backslashes fileName in
      let repoPath := Js.replace_backslashes repoPath in
      let normalizedRepoPath :=
        Js.toLowerCase
          (if Js.endsWith_char "/" repoPath then repoPath else repoPath +:+ "/") in
      let fileName :=
        if Js.startsWith normalizedRepoPath (Js.toLowerCase fileName)
        then Js.substring_from (String.length normalizedRepoPath) fileName
        else fileName in
      (fileName, Some repoPath)
  | _ =>
      let repoPath' :=
        normalizePath (if extract then Some (Path.dirname fileName) else repoPath) in
      let fileName :=
        Js.replace_backslashes (if extract then Path.basename fileName else fileName) in
      (fileName, repoPath')
  end.

(** The file is under the root: it splits into a prefix that equals the
    root (with its trailing slash) up to case, and a remainder. *)
Definition under_root (file prefix rest : string) : Prop :=
  exists pre, file = pre +:+ rest /\ Js.toLowerCase pre = Js.toLowerCase prefix.

(** *** Parameters of the log and stash invocations *)

Definition defaultBlameParams : list string := ["blame"; "--root"; "--incremental"].

Definition defaultLogParams : list string :=
  ["log"; "--name-status"; "--full-history"; "-M";
   "--format=%H -%nauthor %an%nauthor-date %at%nparents %P%nsummary %B%nfilename ?"].

Definition defaultStashParams : list string :=
  ["stash"; "list"; "--name-status"; "--full-history"; "-M";
   "--format=%H -%nauthor-date %at%nreflog-selector %gd%nsummary %B%nfilename ?"].

(** The format string of a parameter list: its [--format=] entry. *)
Definition format_of (params : list string) : option string :=
  match filter (fun p => Js.startsWith "--format=" p = true) params with
  | p :: _ => Some (Js.substring_from 9 p)
  | [] => None
  end.

(** The fields of a format string: the pieces between [%n] (newline). *)
Definition fields (format : string) : list string := Js.split "%n" format.

(** A list of fields with every [old] replaced by [new]. *)
Definition substitute_field (old new : string) (fs : list string) : list string :=
  map (fun f => if String.eqb f old then new else f) fs.

(** A list of fields without [gone]. *)
Definition drop_field (gone : string) (fs : list string) : list string :=
  filter (fun f => f <> gone) fs.

(** *** Expected warnings *)

(** [.*?] *)
Definition dots : regex := star_lazy (Cls is_dot).

Definition unanchored (r : regex) : RegExp :=
  {| body := r; anchored_start := false; anchored_end := false |}.

Definition GitWarnings : list RegExp :=
  [ unanchored (lit "Not a git repository");
    unanchored (lit "is outside repository");
    unanchored (lit "no such path");
    unanchored (lit "does not have any commits");
    unanchored (Cat (lit "Path '") (Cat dots (lit "' does not exist in")));
    unanchored (Cat (lit "Path '") (Cat dots (lit "' exists on disk, but not in")));
    unanchored (lit "no upstream configured for branch") ].

(** *** Errors and results *)

(** A thrown [Error]; [ex.toString()] is ["Error"] for an empty message
    and ["Error: " + message] otherwise. *)
Record Error : Type := { message : string }.

Definition toString (ex : Error) : string :=
  match message ex with
  | EmptyString => "Error"
  | m => "Error: " +:+ m
  end.

(** How an awaited promise settles. *)
Inductive Outcome (A : Type) : Type :=
| Resolved (value : A)
| Rejected (ex : Error).
Arguments Resolved {A} value.
Arguments Rejected {A} ex.

(** [gitCommandDefaultErrorHandler(ex, options, ...args)]; the two logger
    calls print and decide nothing.  Every message is truthy: [toString]
    never yields the empty string. *)
Definition gitCommandDefaultErrorHandler (ex : Error) : Outcome string :=
  let msg := toString ex in
  if existsb (fun warning => test warning msg) GitWarnings
  then Resolved ""
  else Rejected ex.

(** *** The command executor *)

Record GitCommandOptions : Type := {
  cwd : option string;
  env : option (gmap string string);
  encoding : option string;
  stdin : option nat;
  willHandleErrors : bool
}.

(** What [spawnPromise] was called with. *)
Record Spawn : Type := {
  spawn_path : string;
  spawn_args : list string;
  spawn_cwd : option string;
  spawn_env : gmap string string;
  spawn_encoding : string;
  spawn_stdin : option nat
}.

(** The executor's store.  A promise is named by the index of the spawn
    that created it; [pendingCommands] is the module-level
    [Map<string, Promise<string>>]; [settled] records the promises whose
    result is known. *)
Record ExecState : Type := {
  pendingCommands : gmap string nat;
  spawned : list Spawn;
  settled : gmap nat (Outcome string)
}.

Definition exec_init : ExecState :=
  {| pendingCommands := ∅; spawned := []; settled := ∅ |}.

Section Executor.

(** [git.path], [process.env] and [iconv.decode(Buffer.from(s, 'binary'), enc)]. *)
Variable git_path : string.
Variable process_env : gmap string string.
Variable iconv_decode : string -> string -> string.

(** [args.splice(0, 0, '-c', 'core.quotepath=false', '-c', 'color.ui=false')] *)
Definition with_safety_flags (args : list string) : list string :=
  ["-c"; "core.quotepath=false"; "-c"; "color.ui=false"] ++ args.

(** The key of the single-flight map, from the arguments as spliced:
    [`(${options.cwd}): git ` + args.join(' ')]. *)
Definition command_of (options : GitCommandOptions) (args : list string) : string :=
  "(" +:+ Js.tpl (cwd options) +:+ "): git " +:+ Js.join " " args.

(** [{ encoding: 'utf8', ...options }.encoding] *)
Definition opts_encoding (options : GitCommandOptions) : string :=
  match encoding options with
  | Some e => e
  | None => "utf8"
  end.

(** [gitCommandCore] up to its [await]: the store afterwards, the key and
    the promise the caller now awaits. *)
Definition gitCommandCore_begin (st : ExecState) (options : GitCommandOptions)
    (args : list string) : ExecState * string * nat :=
  let args := with_safety_flags args in
  let command := command_of options args in
  match pendingCommands st !! command with
  | None =>
      let promise := length (spawned st) in
      let sp :=
        {| spawn_path := git_path;
           spawn_args := args;
           spawn_cwd := cwd options;
           spawn_env :=
             <["GCM_PRESERVE_CREDS" := "TRUE"]>
               (<["GCM_INTERACTIVE" := "NEVER"]>
                  (match env options with Some e => e | None => process_env end));
           spawn_encoding :=
             if String.eqb (opts_encoding options) "utf8" then "utf8" else "binary";
           spawn_stdin := stdin options |} in
      ({| pendingCommands := <[command := promise]> (pendingCommands st);
          spawned := spawned st ++ [sp];
          settled := settled st |}, command, promise)
  | Some promise => (st, command, promise)
  end.

(** [gitCommandCore] from its [await] on.  A rejection is thrown out of
    the [await], so none of the statements after it run. *)
Definition gitCommandCore_end (st : ExecState) (options : GitCommandOptions)
    (command : string) (s : Outcome string) : ExecState * Outcome string :=
  match s with
  | Rejected ex => (st, Rejected ex)
  | Resolved s =>
      let st' :=
        {| pendingCommands := delete command (pendingCommands st);
           spawned := spawned st;
           settled := settled st |} in
      let enc := opts_encoding options in
      if String.eqb enc "utf8" || String.eqb enc "binary"
      then (st', Resolved s)
      else (st', Resolved (iconv_decode s enc))
  end.

(** [gitCommand] around the result of [gitCommandCore]. *)
Definition gitCommand_end (options : GitCommandOptions)
    (r : Outcome string) : Outcome string :=
  if willHandleErrors options then r
  else
    match r with
    | Resolved s => Resolved s
    | Rejected ex => gitCommandDefaultErrorHandler ex
    end.

(** A caller suspended in [gitCommandCore] at [await promise]. *)
Record Waiter : Type := {
  w_caller : nat;
  w_options : GitCommandOptions;
  w_command : string;
  w_promise : nat
}.

Record System : Type := {
  exec : ExecState;
  waiters : list Waiter;
  returned : list (nat * Outcome string)
}.

Definition sys_init : System :=
  {| exec := exec_init; waiters := []; returned := [] |}.

Inductive Event : Type :=
| Call (caller : nat) (options : GitCommandOptions) (args : list string)
| Settle (promise : nat) (s : Outcome string).

(** The continuation of one waiter once its promise has settled. *)
Definition resume (sys : System) (w : Waiter) (s : Outcome string) : System :=
  let '(st, r) := gitCommandCore_end (exec sys) (w_options w) (w_command w) s in
  {| exec := st;
     waiters := waiters sys;
     returned := returned sys ++ [(w_caller w, gitCommand_end (w_options w) r)] |}.

Definition step (sys : System) (ev : Event) : System :=
  match ev with
  | Call caller options args =>
      let '(st, command, promise) := gitCommandCore_begin (exec sys) options args in
      let w := {| w_caller := caller; w_options := options;
                  w_command := command; w_promise := promise |} in
      let sys' := {| exec := st; waiters := waiters sys; returned := returned sys |} in
      match settled st !! promise with
      | Some s => resume sys' w s
      | None =>
          {| exec := st; waiters := waiters sys ++ [w]; returned := returned sys |}
      end
  | Settle promise s =>
      if bool_decide (promise < length (spawned (exec sys)))
         && bool_decide (settled (exec sys) !! promise = None)
      then
        let st := exec sys in
        let woken := filter (fun w => w_promise w = promise) (waiters sys) in
        let sys' :=
          {| exec := {| pendingCommands := pendingCommands st;
                        spawned := spawned st;
                        settled := <[promise := s]> (settled st) |};
             waiters := filter (fun w => w_promise w <> promise) (waiters sys);
             returned := returned sys |} in
        fold_left (fun acc w => resume acc w s) woken sys'
      else sys
  end.

Definition run (evs : list Event) (sys : System) : System := fold_left step evs sys.

(** *** [Git.show] *)

(** [Git.show] up to its call of [gitCommand]: either the error thrown
    before any invocation, or the options and arguments of the invocation. *)
Definition show_begin (repoPath : option string) (fileName branchOrSha : string)
    (options_encoding : option string) : Error + GitCommandOptions * list string :=
  let '(file, root) := splitPath fileName repoPath true in
  let branchOrSha := if isStagedUncommitted branchOrSha then ":" else branchOrSha in
  if isUncommitted branchOrSha
  then inl {| message := "sha=" +:+ branchOrSha +:+ " is uncommitted" |}
  else
    let opts :=
      {| cwd := root;
         env := None;
         encoding :=
           Some (match options_encoding with
                 | Some (String _ _ as e) => e
                 | _ => "utf8"
                 end);
         stdin := None;
         willHandleErrors := true |} in
    let args :=
      if Js.endsWith_char ":" branchOrSha
      then branchOrSha +:+ "./" +:+ file
      else branchOrSha +:+ ":./" +:+ file in
    inr (opts, ["show"; args]).

(** [Git.show] around the result of that [gitCommand]: [None] is
    [undefined]. *)
Definition show_end (r : Outcome string) : Outcome (option string) :=
  match r with
  | Resolved data => Resolved (Some data)
  | Rejected ex =>
      let msg := toString ex in
      if test (unanchored (Cat (lit "Path '") (Cat dots (lit "' does not exist in")))) msg
         || test (unanchored (Cat (lit "Path '") (Cat dots (lit "' exists on disk, but not in ")))) msg
      then Resolved None
      else
        match gitCommandDefaultErrorHandler ex with
        | Resolved s => Resolved (Some s)
        | Rejected ex' => Rejected ex'
        end
  end.

End Executor.

End Git.

(** ** [GitContextTracker] *)

Module Tracker.

Inductive BlameabilityChangeReason : Type :=
| BlameFailed
| DocumentChanged
| EditorChanged
| RepoChanged.

(** Editors and documents are named by what the tracker compares: the
    editor object ([===]) and its document's uri. *)
Record TextEditor : Type := {
  editor_id : nat;
  document_uri : string
}.

#[global] Instance TextEditor_eq_dec : EqDecision TextEditor.
Proof. solve_decision. Defined.

Record ContextState : Type := {
  blameable : option bool;
  dirty : bool;
  tracked : option bool
}.

Record Context : Type := {
  editor : option TextEditor;
  repo : option nat;
  state : ContextState;
  uri : option string
}.

Record BlameabilityChangeEvent : Type := {
  ev_blameable : option bool;
  ev_editor : option TextEditor;
  ev_reason : BlameabilityChangeReason
}.

(** An [updateContext] call suspended at one of its three [await]s. *)
Inductive Continuation : Type :=
| AwaitGetRepository (reason : BlameabilityChangeReason) (editor : TextEditor) (force : bool)
| AwaitFromUri (reason : BlameabilityChangeReason) (editor : TextEditor) (force : bool)
| AwaitIsTracked (reason : BlameabilityChangeReason) (force : bool).

(** The tracker: its context, the events fired so far (newest first) and
    the suspended [updateContext] calls. *)
Record Tracker : Type := {
  context : Context;
  fired : list BlameabilityChangeEvent;
  suspended : list Continuation
}.

(** [{ state: { dirty: false } }] *)
Definition init : Tracker :=
  {| context :=
       {| editor := None; repo := None;
          state := {| blameable := None; dirty := false; tracked := None |};
          uri := None |};
     fired := [];
     suspended := [] |}.

(** The flag last published through [onDidChangeBlameability]. *)
Definition published (t : Tracker) : option bool :=
  match fired t with
  | ev :: _ => ev_blameable ev
  | [] => None
  end.

Definition set_state (t : Tracker) (st : ContextState) : Tracker :=
  {| context :=
       {| editor := editor (context t); repo := repo (context t);
          state := st; uri := uri (context t) |};
     fired := fired t;
     suspended := suspended t |}.

Definition suspend (t : Tracker) (k : Continuation) : Tracker :=
  {| context := context t; fired := fired t; suspended := suspended t ++ [k] |}.

(** [tracked && !dirty] on a [boolean | undefined] left operand. *)
Definition js_and (a : option bool) (b : bool) : option bool :=
  match a with
  | Some true => Some b
  | other => other
  end.

(** [updateBlameability(reason, blameable?, force = false)];
    [setCommandContext] mirrors the stored flag and is left out. *)
Definition updateBlameability (t : Tracker) (reason : BlameabilityChangeReason)
    (blameable_arg : option bool) (force : bool) : Tracker :=
  let st := state (context t) in
  let blameable' :=
    match blameable_arg with
    | None => js_and (tracked st) (negb (dirty st))
    | Some b => Some b
    end in
  if negb force && bool_decide (blameable st = blameable') then t
  else
    {| context :=
         {| editor := editor (context t); repo := repo (context t);
            state := {| blameable := blameable'; dirty := dirty st; tracked := tracked st |};
            uri := uri (context t) |};
       fired :=
         {| ev_blameable := blameable'; ev_editor := editor (context t);
            ev_reason := reason |} :: fired t;
       suspended := suspended t |}.

(** The end of [updateContext], once [tracked] is known.  [updateRemotes]
    only sets command contexts and is left out. *)
Definition updateContext_end (t : Tracker) (reason : BlameabilityChangeReason)
    (force : bool) (tracked' : bool) : Tracker :=
  let st := state (context t) in
  let t1 :=
    if bool_decide (tracked st = Some tracked') then t
    else set_state t {| blameable := blameable st; dirty := dirty st; tracked := Some tracked' |} in
  updateBlameability t1 reason None force.

(** [updateContext(reason, editor, force = false)] up to its first [await]
    (or to its end, on the paths that have none). *)
Definition updateContext (t : Tracker) (reason : BlameabilityChangeReason)
    (editor' : option TextEditor) (force : bool) : Tracker :=
  let ctx := context t in
  if force || bool_decide (editor ctx <> editor') then
    let t1 :=
      {| context := {| editor := editor'; repo := None; state := state ctx; uri := uri ctx |};
         fired := fired t; suspended := suspended t |} in
    match editor' with
    | Some e => suspend t1 (AwaitGetRepository reason e force)
    | None =>
        let t2 :=
          {| context :=
               {| editor := None; repo := None;
                  state := {| blameable := Some false; dirty := false;
                              tracked := tracked (state ctx) |};
                  uri := None |};
             fired := fired t; suspended := suspended t |} in
        updateContext_end t2 reason force false
    end
  else
    match uri ctx with
    | Some _ => suspend t (AwaitIsTracked reason force)
    | None => updateContext_end t reason force false
    end.

(** What an awaited lookup comes back with.  [FromUriIs] also carries
    [editor.document.isDirty], read in the same turn. *)
Inductive Settlement : Type :=
| GetRepositoryIs (r : option nat)
| FromUriIs (u : string) (isDirty : bool)
| IsTrackedIs (b : bool)
| LookupFailed.

(** The rest of a suspended [updateContext] after its [await].  A failed
    lookup throws out of the [await]: the call ends there. *)
Definition continue (t : Tracker) (k : Continuation) (v : Settlement) : Tracker :=
  match k, v with
  | AwaitGetRepository reason e force, GetRepositoryIs r =>
      let ctx := context t in
      let t1 :=
        match r with
        | Some _ =>
            {| context := {| editor := editor ctx; repo := r; state := state ctx; uri := uri ctx |};
               fired := fired t; suspended := suspended t |}
        | None => t
        end in
      suspend t1 (AwaitFromUri reason e force)
  | AwaitFromUri reason e force, FromUriIs u isDirty =>
      let ctx := context t in
      let st := state ctx in
      let t1 :=
        {| context :=
             {| editor := editor ctx; repo := repo ctx;
                state := {| blameable := blameable st; dirty := isDirty; tracked := tracked st |};
                uri := Some u |};
           fired := fired t; suspended := suspended t |} in
      suspend t1 (AwaitIsTracked reason force)
  | AwaitIsTracked reason force, IsTrackedIs b => updateContext_end t reason force b
  | _, _ => t
  end.

(** What the tracker promises about its flags. *)
Definition tracked_when_blameable (t : Tracker) : Prop :=
  published t = Some true -> tracked (state (context t)) = Some true.

Definition clean_when_blameable (t : Tracker) : Prop :=
  published t = Some true -> dirty (state (context t)) = false.

(** The published flag is the stored one. *)
Definition published_is_stored (t : Tracker) : Prop :=
  published t = blameable (state (context t)).

(** The invariant carried through every signal, and its full form. *)
Definition coherent (t : Tracker) : Prop :=
  published_is_stored t /\
  (blameable (state (context t)) = Some true -> tracked (state (context t)) = Some true).

Definition fully_coherent (t : Tracker) : Prop :=
  published_is_stored t /\
  (blameable (state (context t)) = Some true ->
   tracked (state (context t)) = Some true /\ dirty (state (context t)) = false).

(** The lookup a suspended call awaits came back with a value (the
    promise was not rejected). *)
Definition fits (k : Continuation) (v : Settlement) : bool :=
  match k, v with
  | AwaitGetRepository _ _ _, GetRepositoryIs _
  | AwaitFromUri _ _ _, FromUriIs _ _
  | AwaitIsTracked _ _, IsTrackedIs _ => true
  | _, _ => false
  end.

(** Some suspended call is at [await this.git.isTracked(...)]: the dirty
    flag may be set and blameable not yet recomputed. *)
Definition is_tracked_lookup (k : Continuation) : bool :=
  match k with
  | AwaitIsTracked _ _ => true
  | _ => false
  end.

Definition awaits_tracked (t : Tracker) : bool :=
  existsb is_tracked_lookup (suspended t).

(** Coherent, and fully so unless a call is at its tracked-state lookup. *)
Definition coherent_between_lookups (t : Tracker) : Prop :=
  coherent t /\ (awaits_tracked t = false -> fully_coherent t).

Section Handlers.

(** [git.getCacheEntryKey(uri)], [isTextEditor(editor)] and
    [TextDocumentComparer.equals] on document uris. *)
Variable getCacheEntryKey : string -> string.
Variable isTextEditor : TextEditor -> bool.
Variable documentEquals : string -> string -> bool.

Definition onActiveTextEditorChanged (t : Tracker) (e : option TextEditor) : Tracker :=
  if bool_decide (e = editor (context t)) then t
  else
    match e with
    | Some e' => if negb (isTextEditor e') then t else updateContext t EditorChanged e true
    | None => updateContext t EditorChanged e true
    end.

Definition onBlameFailed (t : Tracker) (key : string) : Tracker :=
  match editor (context t) with
  | None => t
  | Some e =>
      if negb (String.eqb key (getCacheEntryKey (document_uri e))) then t
      else updateBlameability t BlameFailed (Some false) false
  end.

Definition onRepoChanged (t : Tracker) : Tracker :=
  updateContext t RepoChanged (editor (context t)) false.

Definition onTextDocumentChanged (t : Tracker) (doc : string) (isDirty : bool) : Tracker :=
  match editor (context t) with
  | None => t
  | Some e =>
      if negb (documentEquals (document_uri e) doc) then t
      else if Bool.eqb (dirty (state (context t))) isDirty then t
      else
        let st := state (context t) in
        updateBlameability
          (set_state t {| blameable := blameable st; dirty := isDirty; tracked := tracked st |})
          DocumentChanged None false
  end.

(** The signals the tracker reacts to while git is enabled, as delivered
    (the debounce of the editor and document listeners only thins them
    out); git being disabled is added to them in [AnySignal] below.
    [Enabled] is
    the constructor's (and any re-enabling) [onConfigurationChanged];
    [RepositoryChanged] comes from the repository subscribed to, so there
    is none while [repo] is unset; [Settled i v] resumes the [i]-th
    suspended [updateContext]. *)
Inductive Signal : Type :=
| Enabled (activeTextEditor : option TextEditor)
| ActiveTextEditorChanged (e : option TextEditor)
| TextDocumentChanged (doc : string) (isDirty : bool)
| RepositoryChanged
| BlameFailedFor (key : string)
| Settled (i : nat) (v : Settlement).

Definition step (t : Tracker) (sig : Signal) : Tracker :=
  match sig with
  | Enabled e => updateContext t EditorChanged e true
  | ActiveTextEditorChanged e => onActiveTextEditorChanged t e
  | TextDocumentChanged doc isDirty => onTextDocumentChanged t doc isDirty
  | RepositoryChanged =>
      match repo (context t) with
      | Some _ => onRepoChanged t
      | None => t
      end
  | BlameFailedFor key => onBlameFailed t key
  | Settled i v =>
      match suspended t !! i with
      | Some k =>
          continue
            {| context := context t; fired := fired t;
               suspended := take i (suspended t) ++ drop (S i) (suspended t) |}
            k v
      | None => t
      end
  end.

Definition run (sigs : list Signal) (t : Tracker) : Tracker := fold_left step sigs t.

(** One signal handled to completion, every lookup succeeding. *)
Inductive Handled : Type :=
| HEnabled (e : option TextEditor) (r : option nat) (u : string) (isDirty tracked' : bool)
| HEditor (e : option TextEditor) (r : option nat) (u : string) (isDirty tracked' : bool)
| HDocument (doc : string) (isDirty : bool)
| HRepository (tracked' : bool)
| HBlameFailed (key : string).

Definition signals_of (h : Handled) : list Signal :=
  match h with
  | HEnabled e r u d b =>
      [Enabled e; Settled 0 (GetRepositoryIs r); Settled 0 (FromUriIs u d);
       Settled 0 (IsTrackedIs b)]
  | HEditor e r u d b =>
      [ActiveTextEditorChanged e; Settled 0 (GetRepositoryIs r);
       Settled 0 (FromUriIs u d); Settled 0 (IsTrackedIs b)]
  | HDocument doc d => [TextDocumentChanged doc d]
  | HRepository b => [RepositoryChanged; Settled 0 (IsTrackedIs b)]
  | HBlameFailed key => [BlameFailedFor key]
  end.

Definition run_handled (hs : list Handled) (t : Tracker) : Tracker :=
  run (concat (map signals_of hs)) t.

(** Along the run of [sigs] from [t], whatever the interleaving, every
    lookup that settles comes back with a value. *)
Fixpoint lookups_succeed (sigs : list Signal) (t : Tracker) : Prop :=
  match sigs with
  | [] => True
  | sig :: rest =>
      match sig with
      | Settled i v =>
          match suspended t !! i with
          | Some k => fits k v = true
          | None => True
          end
      | _ => True
      end
      /\ lookups_succeed rest (step t sig)
  end.

(** [onConfigurationChanged] when [git.enabled] is turned off: the
    listeners are dropped and the context is updated, unforced, for
    [window.activeTextEditor]. *)
Definition onGitDisabled (t : Tracker) (activeTextEditor : option TextEditor) : Tracker :=
  updateContext t EditorChanged activeTextEditor false.

(** All the tracker reacts to: the signals above and git being disabled.
    After git is disabled a repository subscribed to before still
    signals its changes and the calls already suspended still resume;
    the editor, document and blame listeners are dropped until git is
    enabled again, which this type does not enforce (it only allows more
    runs). *)
Inductive AnySignal : Type :=
| WhileEnabled (sig : Signal)
| GitDisabled (activeTextEditor : option TextEditor).

Definition step_any (t : Tracker) (sig : AnySignal) : Tracker :=
  match sig with
  | WhileEnabled sig => step t sig
  | GitDisabled e => onGitDisabled t e
  end.

Definition run_any (sigs : list AnySignal) (t : Tracker) : Tracker :=
  fold_left step_any sigs t.

Definition is_git_disabled (sig : AnySignal) : bool :=
  match sig with
  | GitDisabled _ => true
  | WhileEnabled _ => false
  end.

End Handlers.

End Tracker.

(** ** [GitContextTracker]: the event log and the remotes flags *)

Module TrackerLog.
Import Tracker.

(** Every fired event but the oldest either comes from a full
    re-evaluation or carries a value other than the one before it. *)
Fixpoint no_redundant (evs : list BlameabilityChangeEvent) : Prop :=
  match evs with
  | ev :: rest =>
      match rest with
      | prev :: _ =>
          (ev_reason ev = EditorChanged \/ ev_blameable ev <> ev_blameable prev)
          /\ no_redundant rest
      | [] => True
      end
  | [] => True
  end.

(** A suspended [updateContext] forces emission only for an editor change. *)
Definition forces_only_editor_changes (k : Continuation) : Prop :=
  match k with
  | AwaitGetRepository reason _ force
  | AwaitFromUri reason _ force
  | AwaitIsTracked reason force => force = true -> reason = EditorChanged
  end.

(** The log, the continuations and coherence together. *)
Definition log_invariant (t : Tracker) : Prop :=
  coherent t /\ no_redundant (fired t) /\ Forall forces_only_editor_changes (suspended t).

End TrackerLog.

Module Remotes.

Section UpdateRemotes.

(** What [repo.hasRemotes()] resolves to, for each repository. *)
Variable hasRemotes : nat -> bool.

(** [for (const repo of repositories) { if (repo === this._context.repo)
    continue; hasRemotes = await repo.hasRemotes(); if (hasRemotes) break; }]
    Every turn of the loop follows an [await], so [this._context.repo] is
    read anew each time: a repository comes paired with the value read at
    its turn. *)
Fixpoint scan (turns : list (nat * option nat)) (acc : bool) : bool :=
  match turns with
  | [] => acc
  | (repo, current) :: rest =>
      if bool_decide (Some repo = current) then scan rest acc
      else
        let acc := hasRemotes repo in
        if acc then acc else scan rest acc
  end.

(** The two command contexts one run of [updateRemotes] sets. *)
Record RemoteContexts : Type := {
  ActiveHasRemotes : bool;
  HasRemotes : bool
}.

(** One run of [updateRemotes()] to its end: [active] is
    [this._context.repo] as read when the run starts, [turns] the
    repositories [git.getRepositories()] resolves to, each with
    [this._context.repo] as read at its turn of the loop. *)
Definition updateRemotes (active : option nat) (turns : list (nat * option nat))
    : RemoteContexts :=
  let hasRemotes0 :=
    match active with
    | Some repo => hasRemotes repo
    | None => false
    end in
  let hasRemotes1 :=
    if negb hasRemotes0 then scan turns hasRemotes0 else hasRemotes0 in
  {| ActiveHasRemotes := hasRemotes0; HasRemotes := hasRemotes1 |}.

(** The context's repository stays what it was for the whole run. *)
Definition steady (active : option nat) (turns : list (nat * option nat)) : Prop :=
  Forall (fun turn => snd turn = active) turns.

End UpdateRemotes.

End Remotes.

(** ** [FileHistoryNode]: the refresh subscription *)

Module FileHistory.

(** The node's [disposable], the subscriptions made and not yet disposed
    of, and how many were ever made.  One [Disposable.from(...)] is one
    subscription. *)
Record Node : Type := {
  disposable : option nat;
  live : list nat;
  made : nat
}.

Definition fresh : Node := {| disposable := None; live := []; made := 0 |}.

(** [updateSubscription()], with [this.explorer.autoRefresh] as read. *)
Definition updateSubscription (autoRefresh : bool) (n : Node) : Node :=
  if autoRefresh then
    match disposable n with
    | Some _ => n
    | None =>
        {| disposable := Some (made n); live := made n :: live n; made := S (made n) |}
    end
  else
    match disposable n with
    | Some d =>
        {| disposable := None; live := filter (fun x => x <> d) (live n); made := made n |}
    | None => n
    end.

(** [getChildren], [getTreeItem] and [onAutoRefreshChanged] each start
    with [updateSubscription]; a run of them is the list of the values of
    [autoRefresh] they read. *)
Definition visits (reads : list bool) (n : Node) : Node :=
  fold_left (fun n autoRefresh => updateSubscription autoRefresh n) reads n.

(** The subscriptions alive are the one the node holds, if any. *)
Definition tidy (n : Node) : Prop :=
  live n = match disposable n with Some d => [d] | None => [] end /\
  match disposable n with Some d => d < made n | None => True end.

End FileHistory.

(** ** [Git.validateVersion] *)

Module Version.

(** White space and line terminators below 256, as [parseInt] skips them. *)
Definition is_space (c : ascii) : bool :=
  let n := nat_of_ascii c in
  ((9 <=? n) && (n <=? 13))%nat || (n =? 32)%nat || (n =? 160)%nat.

Fixpoint skip_spaces (s : string) : string :=
  match s with
  | String c s' => if is_space c then skip_spaces s' else s
  | EmptyString => s
  end.

Definition digit_value (c : ascii) : Z := Z.of_nat (nat_of_ascii c - 48).

(** The value of the longest run of decimal digits at the start of [s],
    continuing from [acc]; [seen] says whether a digit was read. *)
Fixpoint leading_digits (acc : Z) (seen : bool) (s : string) : option Z :=
  match s with
  | String c s' =>
      if Regex.is_digit c then leading_digits (10 * acc + digit_value c)%Z true s'
      else if seen then Some acc else None
  | EmptyString => if seen then Some acc else None
  end.

(** [parseInt(s, 10)]; [None] is [NaN].  Integers are kept exact, as
    doubles are below 2^53. *)
Definition parseInt10 (s : string) : option Z :=
  let s := skip_spaces s in
  match s with
  | String c s' =>
      if Ascii.eqb c "-" then option_map Z.opp (leading_digits 0 false s')
      else if Ascii.eqb c "+" then leading_digits 0 false s'
      else leading_digits 0 false s
  | EmptyString => None
  end.

(** [x >= y] with [x] possibly [NaN]. *)
Definition ge_number (x : option Z) (y : Z) : bool :=
  match x with
  | Some x => (y <=? x)%Z
  | None => false
  end.

(** [validateVersion(major, minor)] for [git.version = version]. *)
Definition validateVersion (version : string) (major minor : Z) : bool :=
  let parts := Js.split "." version in
  let gitMajor := parts !! 0%nat in
  let gitMinor := parts !! 1%nat in
  ge_number (parseInt10 (Js.tpl gitMajor)) major
  && ge_number (parseInt10 (Js.tpl gitMinor)) minor.

(** The number a run of decimal digits writes. *)
Definition decimal (s : string) : Z :=
  fold_left (fun acc c => (10 * acc + digit_value c)%Z) (list_ascii_of_string s) 0%Z.

End Version.

(** ** The git shell: the argument vectors of the commands *)

Module GitCommands.
Import Regex Git.

(** Truthiness of a [string | undefined] and of a [number | undefined]. *)
Definition truthy (o : option string) : bool :=
  match o with
  | Some (String _ _) => true
  | _ => false
  end.

Definition truthy_num (o : option nat) : bool :=
  match o with
  | Some (S _) => true
  | _ => false
  end.

(** [isStagedUncommitted] on a [string | undefined]: [test] coerces its
    argument, so [undefined] is tested as the text ["undefined"]. *)
Definition isStagedUncommitted_opt (sha : option string) : bool :=
  isStagedUncommitted (Js.tpl sha).

(** One call of [gitCommand(options, ...args)]. *)
Record Invocation : Type := {
  inv_options : GitCommandOptions;
  inv_args : list string
}.

Definition plain_options (dir : option string) : GitCommandOptions :=
  {| cwd := dir; env := None; encoding := None; stdin := None;
     willHandleErrors := false |}.

(** [Git.log(repoPath, sha?, maxCount?, reverse = false)] *)
Definition log (repoPath : string) (sha : option string) (maxCount : option nat)
    (reverse : bool) : Invocation :=
  let params := defaultLogParams ++ ["-m"] in
  let params :=
    if truthy_num maxCount && negb reverse
    then params ++ ["-n" +:+ pretty (default 0%nat maxCount)] else params in
  let params :=
    if truthy sha && negb (isStagedUncommitted_opt sha) then
      if reverse
      then params ++ ["--reverse"; "--ancestry-path"; Js.tpl sha +:+ "..HEAD"]
      else params ++ [Js.tpl sha]
    else params in
  {| inv_options := plain_options (Some repoPath); inv_args := params |}.

Record LogFileOptions : Type := {
  lf_maxCount : option nat;
  lf_reverse : bool;
  lf_startLine : option nat;
  lf_endLine : option nat;
  lf_skipMerges : bool
}.

(** [options.maxCount! > 2]: [undefined > 2] is false. *)
Definition more_than_two (maxCount : option nat) : bool :=
  match maxCount with
  | Some n => (2 <? n)%nat
  | None => false
  end.

(** [Git.log_file(repoPath, fileName, sha?, options)] *)
Definition log_file (repoPath fileName : string) (sha : option string)
    (options : LogFileOptions) : Invocation :=
  let '(file, root) := splitPath fileName (Some repoPath) true in
  let params := defaultLogParams ++ ["--follow"] in
  let params :=
    if truthy_num (lf_maxCount options) && negb (lf_reverse options)
    then params ++ ["-n" +:+ pretty (default 0%nat (lf_maxCount options))] else params in
  (* If we are looking for a specific sha don't exclude merge commits *)
  let params :=
    if lf_skipMerges options || negb (truthy sha) || more_than_two (lf_maxCount options)
    then params ++ ["--no-merges"] else params ++ ["-m"] in
  let params :=
    if truthy sha && negb (isStagedUncommitted_opt sha) then
      if lf_reverse options
      then params ++ ["--reverse"; "--ancestry-path"; Js.tpl sha +:+ "..HEAD"]
      else params ++ [Js.tpl sha]
    else params in
  let params :=
    match lf_startLine options, lf_endLine options with
    | Some startLine, Some endLine =>
        params ++ ["-L " +:+ pretty startLine +:+ "," +:+ pretty endLine +:+ ":" +:+ file]
    | _, _ => params
    end in
  let params := params ++ ["--"] in
  let params := params ++ [file] in
  {| inv_options := plain_options root; inv_args := params |}.

(** [Git.log_shortstat(repoPath, sha?)] *)
Definition log_shortstat (repoPath : string) (sha : option string) : Invocation :=
  let params := ["log"; "--shortstat"; "--oneline"] in
  let params :=
    if truthy sha && negb (isStagedUncommitted_opt sha)
    then params ++ [Js.tpl sha] else params in
  {| inv_options := plain_options (Some repoPath); inv_args := params |}.

(** The [gitCommand] call of [Git.ls_files(repoPath, fileName, sha?)]. *)
Definition ls_files (repoPath fileName : string) (sha : option string) : Invocation :=
  let params := ["ls-files"] in
  let params :=
    if truthy sha && negb (isStagedUncommitted_opt sha)
    then params ++ ["--with-tree=" +:+ Js.tpl sha] else params in
  {| inv_options :=
       {| cwd := Some repoPath; env := None; encoding := None; stdin := None;
          willHandleErrors := true |};
     inv_args := params ++ [fileName] |}.

(** [Git.diff(repoPath, fileName, sha1?, sha2?, options)] *)
Definition diff (repoPath fileName : string) (sha1 sha2 : option string)
    (options_encoding : option string) : Invocation :=
  let params := ["diff"; "--diff-filter=M"; "-M"; "--no-ext-diff"] in
  let params :=
    if truthy sha1
    then params ++ [if isStagedUncommitted_opt sha1 then "--staged" else Js.tpl sha1]
    else params in
  let params :=
    if truthy sha2
    then params ++ [if isStagedUncommitted_opt sha2 then "--staged" else Js.tpl sha2]
    else params in
  {| inv_options :=
       {| cwd := Some repoPath; env := None;
          encoding := Some (if truthy options_encoding then Js.tpl options_encoding
                            else "utf8");
          stdin := None; willHandleErrors := false |};
     inv_args := params ++ ["--"; fileName] |}.

(** [Git.blame(repoPath, fileName, sha?, options)].  The standard input,
    when there is one, is the result of [Git.show(repoPath, fileName, ':')]:
    [blame_stdin] holds the arguments of that call. *)
Record Blame : Type := {
  blame_root : option string;
  blame_args : list string;
  blame_stdin : option (option string * string * string)
}.

Definition blame (repoPath : option string) (fileName : string) (sha : option string)
    (ignoreWhitespace : bool) (startLine endLine : option nat) : Blame :=
  let '(file, root) := splitPath fileName repoPath true in
  let params := defaultBlameParams in
  let params := if ignoreWhitespace then params ++ ["-w"] else params in
  let params :=
    match startLine, endLine with
    | Some startLine, Some endLine =>
        params ++ ["-L " +:+ pretty startLine +:+ "," +:+ pretty endLine]
    | _, _ => params
    end in
  let '(params, stdin) :=
    if truthy sha then
      if isStagedUncommitted_opt sha
      then (params ++ ["--contents"; "-"], Some (repoPath, fileName, ":"))
      else (params ++ [Js.tpl sha], None)
    else (params, None) in
  {| blame_root := root; blame_args := params ++ ["--"; file]; blame_stdin := stdin |}.

Section Status.

Variable process_env : gmap string string.

(** [Git.status(repoPath, porcelainVersion = 1)] *)
Definition status (repoPath : string) (porcelainVersion : nat) : Invocation :=
  let porcelain :=
    if (2 <=? porcelainVersion)%nat
    then "--porcelain=v" +:+ pretty porcelainVersion else "--porcelain" in
  {| inv_options :=
       {| cwd := Some repoPath;
          env := Some (<["GIT_OPTIONAL_LOCKS" := "0"]> process_env);
          encoding := None; stdin := None; willHandleErrors := false |};
     inv_args := ["status"; porcelain; "--branch"; "-u"] |}.

(** [Git.status_file(repoPath, fileName, porcelainVersion = 1)] *)
Definition status_file (repoPath fileName : string) (porcelainVersion : nat) : Invocation :=
  let '(file, root) := splitPath fileName (Some repoPath) true in
  let porcelain :=
    if (2 <=? porcelainVersion)%nat
    then "--porcelain=v" +:+ pretty porcelainVersion else "--porcelain" in
  {| inv_options :=
       {| cwd := root;
          env := Some (<["GIT_OPTIONAL_LOCKS" := "0"]> process_env);
          encoding := None; stdin := None; willHandleErrors := false |};
     inv_args := ["status"; porcelain; file] |}.

End Status.

End GitCommands.

(** ** What the executor keeps true of its store *)

Module ExecutorInvariant.
Import Git.

(** Every key of the map names a spawned process; every settled promise
    is a spawned one; no two keys share a promise; every waiting caller
    waits on a promise that has not settled and that is registered under
    the caller's own key; and every entry of the map is either a running
    command with a caller waiting on it, or a command that failed. *)
Record well_formed (sys : System) : Prop := {
  wf_pending_spawned :
    forall k p, pendingCommands (exec sys) !! k = Some p ->
                p < length (spawned (exec sys));
  wf_settled_spawned :
    forall p r, settled (exec sys) !! p = Some r -> p < length (spawned (exec sys));
  wf_injective :
    forall k1 k2 p, pendingCommands (exec sys) !! k1 = Some p ->
                    pendingCommands (exec sys) !! k2 = Some p -> k1 = k2;
  wf_waiters :
    forall w, w ∈ waiters sys ->
              pendingCommands (exec sys) !! w_command w = Some (w_promise w) /\
              settled (exec sys) !! w_promise w = None;
  wf_entries :
    forall k p, pendingCommands (exec sys) !! k = Some p ->
      (settled (exec sys) !! p = None /\
       exists w, w ∈ waiters sys /\ w_command w = k /\ w_promise w = p) \/
      (exists ex, settled (exec sys) !! p = Some (Rejected ex))
}.

(** Every spawned process has settled. *)
Definition all_settled (sys : System) : Prop :=
  forall p, p < length (spawned (exec sys)) -> settled (exec sys) !! p <> None.

(** No process fails. *)
Definition no_failure (evs : list Event) : Prop :=
  forall p ex, Settle p (Rejected ex) ∉ evs.

End ExecutorInvariant.

(** ** [splitPath] on UTF-16 code units *)

Module Utf16.

(** A JavaScript string as it is: a sequence of UTF-16 code units.  The
    strings of [Js] are those whose code units are all below 256. *)
Definition ustring : Type := list N.

(** The code units of a string of [Js]. *)
Definition units (s : string) : ustring := map N_of_ascii (list_ascii_of_string s).

(** [toLowerCase] of one code unit, for U+0000 to U+00FF (as
    [Js.lower_char]) and for U+0130, the capital I with a dot above, whose
    lower case is the two units U+0069 U+0307; [None] for the code units
    this table does not reach. *)
Definition lower_unit (u : N) : option ustring :=
  if (u <? 256)%N then
    Some [if ((65 <=? u)%N && (u <=? 90)%N)
             || ((192 <=? u)%N && (u <=? 222)%N && negb (u =? 215)%N)
          then (u + 32)%N else u]
  else if (u =? 304)%N then Some [105%N; 775%N]
  else None.

(** [s.toLowerCase()]. *)
Fixpoint toLowerCase (s : ustring) : option ustring :=
  match s with
  | [] => Some []
  | u :: s' =>
      match lower_unit u, toLowerCase s' with
      | Some l, Some r => Some (l ++ r)
      | _, _ => None
      end
  end.

(** [s.replace(/\\/g, '/')]. *)
Definition replace_backslashes (s : ustring) : ustring :=
  map (fun u => if (u =? 92)%N then 47%N else u) s.

(** [s.endsWith('/')]. *)
Definition endsWith_slash (s : ustring) : bool :=
  match last s with
  | Some u => (u =? 47)%N
  | None => false
  end.

(** [s.startsWith(p)]. *)
Fixpoint startsWith (p s : ustring) : bool :=
  match p, s with
  | [], _ => true
  | _ :: _, [] => false
  | a :: p', b :: s' => (a =? b)%N && startsWith p' s'
  end.

(** [splitPath(fileName, repoPath)] with a supplied (non-empty)
    [repoPath]: the branch [if (repoPath)].  The file name is cut at
    [normalizedRepoPath.length], the length of the lower-cased root. *)
Definition splitPath (fileName repoPath : ustring) : option (ustring * ustring) :=
  let fileName := replace_backslashes fileName in
  let repoPath := replace_backslashes repoPath in
  match toLowerCase (if endsWith_slash repoPath then repoPath else repoPath ++ [47%N]),
        toLowerCase fileName with
  | Some normalizedRepoPath, Some lowered =>
      Some (if startsWith normalizedRepoPath lowered
            then drop (length normalizedRepoPath) fileName
            else fileName,
            repoPath)
  | _, _ => None
  end.

End Utf16.

(** * Properties *)

Import Regex Git.

(** ** Strings *)

Lemma append_empty_r (s : string) : s +:+ "" = s.
Proof. induction s as [|c s IH]; simpl; [reflexivity | now rewrite IH]. Qed.

Lemma append_assoc (s1 s2 s3 : string) : (s1 +:+ s2) +:+ s3 = s1 +:+ (s2 +:+ s3).
Proof. induction s1 as [|c s1 IH]; simpl; [reflexivity | now rewrite IH]. Qed.

Lemma append_length (s1 s2 : string) :
  String.length (s1 +:+ s2) = (String.length s1 + String.length s2)%nat.
Proof. induction s1 as [|c s1 IH]; simpl; [reflexivity | now rewrite IH]. Qed.

Lemma append_eq_empty (s1 s2 : string) : s1 +:+ s2 = "" -> s1 = "" /\ s2 = "".
Proof. destruct s1; simpl; [auto | discriminate]. Qed.

Lemma append_eq_cons (s1 s2 : string) (c : ascii) (s : string) :
  s1 +:+ s2 = String c s ->
  (s1 = "" /\ s2 = String c s) \/ (exists s1', s1 = String c s1' /\ s = s1' +:+ s2).
Proof.
  destruct s1 as [|d s1]; simpl; intros H.
  - left; auto.
  - injection H as -> <-. right; eauto.
Qed.

Lemma append_inj_length (a b a' b' : string) :
  a +:+ b = a' +:+ b' -> String.length a = String.length a' -> a = a' /\ b = b'.
Proof.
  revert a'; induction a as [|c a IH]; intros [|c' a'] H Hl; simpl in *;
    try discriminate; auto.
  injection H as -> H. injection Hl as Hl.
  destruct (IH _ H Hl) as [-> ->]; auto.
Qed.

Lemma last_char_append (s1 s2 : string) :
  s2 <> "" -> Js.last_char (s1 +:+ s2) = Js.last_char s2.
Proof.
  intros Hne. induction s1 as [|c s1 IH]; simpl; [reflexivity|].
  rewrite IH. destruct (s1 +:+ s2) eqn:E; [|reflexivity].
  apply append_eq_empty in E as [_ ->]. contradiction.
Qed.

Lemma last_char_every (p : ascii -> bool) (s : string) :
  Js.every p s = true -> s <> "" -> exists c, Js.last_char s = Some c /\ p c = true.
Proof.
  induction s as [|c s IH]; simpl; intros H Hne; [contradiction|].
  apply andb_true_iff in H as [Hc Hs].
  destruct s as [|d s']; [eauto|].
  apply IH; [assumption | discriminate].
Qed.

Lemma every_append (p : ascii -> bool) (s1 s2 : string) :
  Js.every p (s1 +:+ s2) = Js.every p s1 && Js.every p s2.
Proof.
  induction s1 as [|c s1 IH]; simpl; [reflexivity|].
  now rewrite IH, andb_assoc.
Qed.

(** ** The matcher decides the declarative semantics *)

Lemma matches_empty_nullable (r : regex) (s : string) :
  matches r s -> s = "" -> nullable r = true.
Proof.
  induction 1; intros E; simpl; try discriminate; try reflexivity.
  - apply append_eq_empty in E as [-> ->]. now rewrite IHmatches1, IHmatches2.
  - now rewrite IHmatches.
  - rewrite IHmatches by assumption. apply orb_true_r.
Qed.

Lemma nullable_matches (r : regex) : nullable r = true <-> matches r "".
Proof.
  split; [|intros H; now apply (matches_empty_nullable r "")].
  induction r; simpl; intros H; try discriminate.
  - constructor.
  - apply andb_true_iff in H as [H1 H2].
    change "" with ("" +:+ ""). constructor; auto.
  - apply orb_true_iff in H as [H|H]; [apply MAltL | apply MAltR]; auto.
  - constructor.
Qed.

Lemma matches_star_cons (r0 : regex) (s0 : string) :
  matches r0 s0 ->
  forall r c s, r0 = Star r -> s0 = String c s ->
  exists s1 s2, s = s1 +:+ s2 /\ matches r (String c s1) /\ matches (Star r) s2.
Proof.
  induction 1; intros r' c' s' Er Es; try discriminate.
  injection Er as ->.
  apply append_eq_cons in Es as [[-> ->] | (s1' & -> & ->)].
  - now apply IHmatches2.
  - eauto.
Qed.

Lemma deriv_matches (r : regex) : forall c s,
  matches (deriv c r) s <-> matches r (String c s).
Proof.
  induction r as [| |p|r1 IH1 r2 IH2|r1 IH1 r2 IH2|r IH]; intros c s; simpl.
  - split; inversion 1.
  - split; inversion 1.
  - destruct (p c) eqn:Hp; split; intros H; inversion H; subst.
    + now constructor.
    + constructor.
    + congruence.
  - assert (Hcat : matches (Cat (deriv c r1) r2) s -> matches (Cat r1 r2) (String c s)).
    { intros H. inversion H; subst.
      change (String c (s1 +:+ s2)) with (String c s1 +:+ s2).
      constructor; [now apply IH1 | assumption]. }
    assert (Hinv : matches (Cat r1 r2) (String c s) ->
                   (nullable r1 = true /\ matches (deriv c r2) s)
                   \/ matches (Cat (deriv c r1) r2) s).
    { intros H. inversion H as [| |? ? s1 s2 H1 H2| | | |]; subst.
      match goal with E : _ +:+ _ = String _ _ |- _ =>
        apply append_eq_cons in E as [[-> ->] | (s1' & -> & ->)] end.
      - left. split; [now apply nullable_matches | now apply IH2].
      - right. constructor; [now apply IH1 | assumption]. }
    destruct (nullable r1) eqn:Hn; split; intros H.
    + inversion H; subst; [now apply Hcat|].
      change (String c s) with ("" +:+ String c s).
      constructor; [now apply nullable_matches | now apply IH2].
    + destruct (Hinv H) as [[_ H2] | H1]; [now apply MAltR | now apply MAltL].
    + now apply Hcat.
    + destruct (Hinv H) as [[Hn' _] | H1]; [congruence | assumption].
  - split; intros H; inversion H; subst.
    + apply MAltL. now apply IH1.
    + apply MAltR. now apply IH2.
    + apply MAltL. now apply IH1.
    + apply MAltR. now apply IH2.
  - split; intros H.
    + inversion H; subst.
      change (String c (s1 +:+ s2)) with (String c s1 +:+ s2).
      constructor; [now apply IH | assumption].
    + destruct (matches_star_cons _ _ H r c s eq_refl eq_refl) as (s1 & s2 & -> & H1 & H2).
      constructor; [now apply IH | assumption].
Qed.

Lemma accepts_matches (r : regex) (s : string) : accepts r s = true <-> matches r s.
Proof.
  revert r; induction s as [|c s IH]; intros r; simpl.
  - apply nullable_matches.
  - rewrite IH. apply deriv_matches.
Qed.

(** ** The languages of the patterns *)

Lemma matches_eps (s : string) : matches Eps s <-> s = "".
Proof. split; [now inversion 1 | intros ->; constructor]. Qed.

Lemma matches_cat (r1 r2 : regex) (s : string) :
  matches (Cat r1 r2) s <->
  exists s1 s2, s = s1 +:+ s2 /\ matches r1 s1 /\ matches r2 s2.
Proof.
  split.
  - inversion 1; subst; eauto.
  - intros (s1 & s2 & -> & H1 & H2). now constructor.
Qed.

Lemma matches_alt (r1 r2 : regex) (s : string) :
  matches (Alt r1 r2) s <-> matches r1 s \/ matches r2 s.
Proof.
  split.
  - inversion 1; subst; auto.
  - intros [H|H]; [now apply MAltL | now apply MAltR].
Qed.

Lemma matches_cls (p : ascii -> bool) (s : string) :
  matches (Cls p) s <-> exists c, s = String c "" /\ p c = true.
Proof.
  split.
  - inversion 1; subst; eauto.
  - intros (c & -> & H). now constructor.
Qed.

Lemma matches_chr (c : ascii) (s : string) : matches (chr c) s <-> s = String c "".
Proof.
  unfold chr. rewrite matches_cls. split.
  - intros (d & -> & H). apply Ascii.eqb_eq in H. now subst.
  - intros ->. exists c. split; [reflexivity | apply Ascii.eqb_refl].
Qed.

Lemma matches_lit (l s : string) : matches (lit l) s <-> s = l.
Proof.
  revert s; induction l as [|c l IH]; intros s; simpl.
  - apply matches_eps.
  - rewrite matches_cat. split.
    + intros (s1 & s2 & -> & H1 & H2).
      apply matches_chr in H1 as ->. apply IH in H2 as ->. reflexivity.
    + intros ->. exists (String c ""), l. split; [reflexivity|].
      split; [now apply matches_chr | now apply IH].
Qed.

Lemma matches_star_cls (p : ascii -> bool) (s : string) :
  matches (Star (Cls p)) s <-> Js.every p s = true.
Proof.
  split.
  - intros H. remember (Star (Cls p)) as r eqn:Er.
    induction H; try discriminate; [reflexivity|].
    injection Er as ->. rewrite every_append, IHmatches2 by reflexivity.
    apply matches_cls in H as (c & -> & Hc). simpl. now rewrite Hc.
  - induction s as [|c s IH]; simpl; intros H; [constructor|].
    apply andb_true_iff in H as [Hc Hs].
    change (String c s) with (String c "" +:+ s).
    constructor; [now constructor | now apply IH].
Qed.

Lemma matches_rep_cls (p : ascii -> bool) (n : nat) (s : string) :
  matches (rep n (Cls p)) s <-> String.length s = n /\ Js.every p s = true.
Proof.
  revert s; induction n as [|n IH]; intros s; simpl.
  - rewrite matches_eps. split.
    + intros ->. auto.
    + intros [H _]. destruct s; [reflexivity | discriminate].
  - rewrite matches_cat. split.
    + intros (s1 & s2 & -> & H1 & H2).
      apply matches_cls in H1 as (c & -> & Hc). apply IH in H2 as [Hl He].
      simpl. rewrite Hc, Hl, He. auto.
    + intros [Hl He]. destruct s as [|c s]; [discriminate|].
      simpl in *. apply andb_true_iff in He as [Hc Hs]. injection Hl as Hl.
      exists (String c ""), s. split; [reflexivity|].
      split; [now apply matches_cls; eauto | now apply IH].
Qed.

Lemma matches_caret_group (g : string) :
  matches (opt_lazy (Cat (chr "^") (star_lazy (Cls is_digit)))) g <->
  is_caret_suffix g = true.
Proof.
  unfold opt_lazy, star_lazy. rewrite matches_alt, matches_eps, matches_cat. split.
  - intros [-> | (s1 & s2 & -> & H1 & H2)]; [reflexivity|].
    apply matches_chr in H1 as ->. apply matches_star_cls in H2.
    simpl. now rewrite H2.
  - destruct g as [|c ds]; [now left|]. simpl. intros H.
    apply andb_true_iff in H as [Hc Hd]. apply Ascii.eqb_eq in Hc as ->.
    right. exists (String "^" ""), ds. split; [reflexivity|].
    split; [now apply matches_chr | now apply matches_star_cls].
Qed.

Lemma test_anchored (re : RegExp) (s : string) :
  anchored_start re = true -> anchored_end re = true ->
  (test re s = true <-> matches (body re) s).
Proof.
  intros Hs He. unfold test. rewrite Hs, He, accepts_matches, matches_cat. split.
  - intros (s1 & s2 & -> & H1 & H2).
    apply matches_eps in H1 as ->. apply matches_cat in H2 as (t1 & t2 & -> & H2 & H3).
    apply matches_eps in H3 as ->. simpl. now rewrite append_empty_r.
  - intros H. exists "", s. split; [reflexivity|]. split; [constructor|].
    apply matches_cat. exists s, "". rewrite append_empty_r.
    split; [reflexivity|]. split; [assumption | constructor].
Qed.

Lemma matches_star_any (s : string) : matches (Star any) s.
Proof. apply matches_star_cls. induction s; simpl; auto. Qed.

(** An unanchored pattern is searched for: [test] holds exactly when some
    substring is in the language of the body. *)
Lemma test_unanchored (r : regex) (s : string) :
  test (unanchored r) s = true <->
  exists pre mid post, s = pre +:+ mid +:+ post /\ matches r mid.
Proof.
  unfold test, unanchored; simpl. rewrite accepts_matches, matches_cat. split.
  - intros (pre & s2 & -> & _ & H2).
    apply matches_cat in H2 as (mid & post & -> & H2 & _). eauto.
  - intros (pre & mid & post & -> & H). exists pre, (mid +:+ post).
    split; [reflexivity|]. split; [apply matches_star_any|].
    apply matches_cat. exists mid, post.
    split; [reflexivity|]. split; [assumption | apply matches_star_any].
Qed.

Lemma isSha_spec (s : string) :
  isSha s = true <->
  exists h g d, s = h +:+ g +:+ d /\ String.length h = 40%nat /\
    Js.every is_hex h = true /\ is_caret_suffix g = true /\ (d = "" \/ d = " -").
Proof.
  unfold isSha. rewrite test_anchored by reflexivity. unfold shaRegex, body.
  rewrite matches_cat. split.
  - intros (h & s2 & -> & Hh & H2).
    apply matches_cat in H2 as (g & d & -> & Hg & Hd).
    apply matches_rep_cls in Hh as [Hl Hh]. apply matches_caret_group in Hg.
    exists h, g, d. repeat split; try assumption.
    apply matches_alt in Hd as [Hd|Hd].
    + apply matches_lit in Hd. now right.
    + apply matches_eps in Hd. now left.
  - intros (h & g & d & -> & Hl & Hh & Hg & Hd).
    exists h, (g +:+ d). split; [reflexivity|].
    split; [now apply matches_rep_cls|].
    apply matches_cat. exists g, d. split; [reflexivity|].
    split; [now apply matches_caret_group|].
    apply matches_alt. destruct Hd as [-> | ->].
    + right. constructor.
    + left. now apply matches_lit.
Qed.

Lemma isStagedUncommitted_spec (s : string) :
  isStagedUncommitted s = true <->
  exists z g, s = z +:+ g +:+ ":" /\ String.length z = 40%nat /\
    Js.every is_zero z = true /\ is_caret_suffix g = true.
Proof.
  unfold isStagedUncommitted. rewrite test_anchored by reflexivity.
  unfold stagedUncommittedRegex, body. rewrite matches_cat. split.
  - intros (z & s2 & -> & Hz & H2).
    apply matches_cat in H2 as (g & k & -> & Hg & Hk).
    apply matches_rep_cls in Hz as [Hl Hz]. apply matches_caret_group in Hg.
    apply matches_chr in Hk as ->. exists z, g. auto.
  - intros (z & g & -> & Hl & Hz & Hg).
    exists z, (g +:+ ":"). split; [reflexivity|].
    split; [now apply matches_rep_cls|].
    apply matches_cat. exists g, ":". split; [reflexivity|].
    split; [now apply matches_caret_group | now apply matches_chr].
Qed.

Lemma isUncommitted_spec (s : string) :
  isUncommitted s = true <->
  exists z g k, s = z +:+ g +:+ k /\ String.length z = 40%nat /\
    Js.every is_zero z = true /\ is_caret_suffix g = true /\ (k = "" \/ k = ":").
Proof.
  unfold isUncommitted. rewrite test_anchored by reflexivity.
  unfold uncommittedRegex, body. rewrite matches_cat. split.
  - intros (z & s2 & -> & Hz & H2).
    apply matches_cat in H2 as (g & k & -> & Hg & Hk).
    apply matches_rep_cls in Hz as [Hl Hz]. apply matches_caret_group in Hg.
    exists z, g, k. repeat split; try assumption.
    apply matches_alt in Hk as [Hk|Hk].
    + apply matches_eps in Hk. now left.
    + apply matches_chr in Hk. now right.
  - intros (z & g & k & -> & Hl & Hz & Hg & Hk).
    exists z, (g +:+ k). split; [reflexivity|].
    split; [now apply matches_rep_cls|].
    apply matches_cat. exists g, k. split; [reflexivity|].
    split; [now apply matches_caret_group|].
    apply matches_alt. destruct Hk as [-> | ->].
    + left. constructor.
    + right. now apply matches_chr.
Qed.

(** ** Sentinel classes *)

Lemma every_impl (p q : ascii -> bool) (s : string) :
  (forall c, p c = true -> q c = true) -> Js.every p s = true -> Js.every q s = true.
Proof.
  intros Hpq. induction s as [|c s IH]; simpl; [reflexivity|].
  intros H. apply andb_true_iff in H as [Hc Hs]. now rewrite (Hpq _ Hc), IH.
Qed.

Lemma every_zero_determined (z z' : string) :
  Js.every is_zero z = true -> Js.every is_zero z' = true ->
  String.length z = String.length z' -> z = z'.
Proof.
  revert z'; induction z as [|c z IH]; intros [|c' z'] H H' Hl; simpl in *;
    try discriminate; [reflexivity|].
  apply andb_true_iff in H as [Hc Hz]. apply andb_true_iff in H' as [Hc' Hz'].
  apply Ascii.eqb_eq in Hc as ->. apply Ascii.eqb_eq in Hc' as ->.
  injection Hl as Hl. now rewrite (IH z').
Qed.

Lemma substring_split (n : nat) (s : string) :
  s = Js.substring_to n s +:+ Js.substring_from n s.
Proof.
  revert s; induction n as [|n IH]; intros [|c s]; simpl; try reflexivity.
  now rewrite <- IH.
Qed.

Lemma substring_from_append (pre s : string) :
  Js.substring_from (String.length pre) (pre +:+ s) = s.
Proof. induction pre as [|c pre IH]; simpl; [now destruct s | assumption]. Qed.

Lemma isSha_last_char (s : string) : isSha s = true -> Js.last_char s <> Some ":"%char.
Proof.
  intros H. apply isSha_spec in H as (h & g & d & -> & Hl & Hh & Hg & [-> | ->]).
  - rewrite append_empty_r. destruct g as [|c ds].
    + rewrite append_empty_r.
      destruct (last_char_every _ _ Hh) as (c & -> & Hc); [now destruct h|].
      intros [= ->]. discriminate Hc.
    + rewrite last_char_append by discriminate.
      assert (He : Js.every (fun c => Ascii.eqb c "^" || is_digit c) (String c ds) = true).
      { simpl in *. apply andb_true_iff in Hg as [-> Hd]. simpl.
        apply (every_impl is_digit); [|assumption].
        intros x ->. apply orb_true_r. }
      destruct (last_char_every _ _ He) as (x & -> & Hx); [discriminate|].
      intros [= ->]. discriminate Hx.
  - rewrite <- append_assoc, last_char_append by discriminate. discriminate.
Qed.

Lemma isStagedUncommitted_last_char (s : string) :
  isStagedUncommitted s = true -> Js.last_char s = Some ":"%char.
Proof.
  intros H. apply isStagedUncommitted_spec in H as (z & g & -> & _).
  rewrite <- append_assoc. now rewrite last_char_append by discriminate.
Qed.

(** C1 (as stated, refuted): the three predicates are not pairwise
    exclusive.  The forty-zero id satisfies both [isSha] and
    [isUncommitted], and the staged sentinel satisfies both
    [isStagedUncommitted] and [isUncommitted]. *)
Lemma sentinel_classes_overlap :
  (isSha uncommittedSha = true /\ isUncommitted uncommittedSha = true) /\
  (isStagedUncommitted stagedUncommittedSha = true /\
   isUncommitted stagedUncommittedSha = true).
Proof. vm_compute. auto. Qed.

(** C1 (amended): [isSha] and [isStagedUncommitted] exclude each other;
    every id that satisfies [isStagedUncommitted] also satisfies
    [isUncommitted]; an id satisfies both [isSha] and [isUncommitted]
    exactly when it is forty zeros followed by nothing or by a caret and
    digits; and every 40-hex-based id satisfies [isSha]. *)
Theorem sentinel_classes (s : string) :
  (isSha s = true -> isStagedUncommitted s = false) /\
  (isStagedUncommitted s = true -> isUncommitted s = true) /\
  (isSha s = true /\ isUncommitted s = true <->
   exists g, s = uncommittedSha +:+ g /\ is_caret_suffix g = true) /\
  (is_hex40_based s = true -> isSha s = true).
Proof.
  split; [|split; [|split]].
  - intros Hsha. destruct (isStagedUncommitted s) eqn:Hst; [|reflexivity].
    apply isStagedUncommitted_last_char in Hst.
    now apply isSha_last_char in Hsha.
  - intros Hst. apply isStagedUncommitted_spec in Hst as (z & g & -> & Hl & Hz & Hg).
    apply isUncommitted_spec. exists z, g, ":". repeat split; auto.
  - split.
    + intros [Hsha Hun].
      pose proof (isSha_last_char _ Hsha) as Hlast.
      apply isUncommitted_spec in Hun as (z & g & k & -> & Hl & Hz & Hg & [-> | ->]).
      * rewrite append_empty_r. exists g. split; [|assumption].
        now rewrite (every_zero_determined z uncommittedSha).
      * exfalso. apply Hlast.
        rewrite <- append_assoc. now rewrite last_char_append by discriminate.
    + intros (g & -> & Hg). split.
      * apply isSha_spec. exists uncommittedSha, g, "".
        rewrite append_empty_r. repeat split; auto.
      * apply isUncommitted_spec. exists uncommittedSha, g, "".
        rewrite append_empty_r. repeat split; auto.
  - unfold is_hex40_based. intros H.
    apply andb_true_iff in H as [H Hg]. apply andb_true_iff in H as [Hl Hh].
    apply Nat.eqb_eq in Hl.
    apply isSha_spec. exists (Js.substring_to 40 s), (Js.substring_from 40 s), "".
    rewrite append_empty_r. split; [apply substring_split | repeat split; auto].
Qed.

Lemma sentinel_classes_witness :
  isStagedUncommitted "0123456789abcdef0123456789abcdef01234567^2" = false /\
  isUncommitted stagedUncommittedSha = true /\
  isSha "0123456789abcdef0123456789abcdef01234567^2" = true.
Proof.
  split; [|split].
  - apply (proj1 (sentinel_classes "0123456789abcdef0123456789abcdef01234567^2")).
    vm_compute; reflexivity.
  - apply (proj1 (proj2 (sentinel_classes stagedUncommittedSha))).
    vm_compute; reflexivity.
  - apply (proj2 (proj2 (proj2
      (sentinel_classes "0123456789abcdef0123456789abcdef01234567^2")))).
    vm_compute; reflexivity.
Defined.

(** ** Short form *)

Lemma indexOf_first (c : ascii) (pre suf : string) :
  Js.every (fun d => negb (Ascii.eqb d c)) pre = true ->
  Js.indexOf c (pre +:+ String c suf) = Z.of_nat (String.length pre).
Proof.
  induction pre as [|d pre IH]; simpl; intros H.
  - now rewrite Ascii.eqb_refl.
  - apply andb_true_iff in H as [Hd Hp]. apply negb_true_iff in Hd.
    rewrite Hd, (IH Hp). destruct (Z.ltb_spec (Z.of_nat (String.length pre)) 0); lia.
Qed.

Lemma indexOf_absent (c : ascii) (s : string) :
  Js.every (fun d => negb (Ascii.eqb d c)) s = true -> Js.indexOf c s = (-1)%Z.
Proof.
  induction s as [|d s IH]; simpl; intros H; [reflexivity|].
  apply andb_true_iff in H as [Hd Hp]. apply negb_true_iff in Hd.
  now rewrite Hd, (IH Hp).
Qed.

(** C5: [shortenSha] gives ["index"] for a staged-uncommitted id, the
    empty string for an otherwise uncommitted id, and for any other id the
    first eight characters, unless its caret stands beyond position 6:
    then the first six characters and the whole suffix from the caret on. *)
Theorem shortenSha_spec (sha : string) :
  (isStagedUncommitted sha = true -> shortenSha sha = "index") /\
  (isStagedUncommitted sha = false -> isUncommitted sha = true -> shortenSha sha = "") /\
  (isStagedUncommitted sha = false -> isUncommitted sha = false ->
   (forall pre suf,
      sha = pre +:+ String "^" suf ->
      Js.every (fun d => negb (Ascii.eqb d "^")) pre = true ->
      (6 < String.length pre ->
       shortenSha sha = Js.substring_to 6 sha +:+ String "^" suf) /\
      (String.length pre <= 6 -> shortenSha sha = Js.substring_to 8 sha)) /\
   (Js.every (fun d => negb (Ascii.eqb d "^")) sha = true ->
    shortenSha sha = Js.substring_to 8 sha)).
Proof.
  unfold shortenSha. split; [|split].
  - now intros ->.
  - now intros -> ->.
  - intros -> ->. split.
    + intros pre suf -> Hpre. rewrite (indexOf_first _ _ _ Hpre). split; intros Hlen.
      * destruct (Z.gtb_spec (Z.of_nat (String.length pre)) 6); [|lia].
        rewrite Nat2Z.id.
        now rewrite substring_from_append.
      * destruct (Z.gtb_spec (Z.of_nat (String.length pre)) 6); [lia | reflexivity].
    + intros Hno. now rewrite (indexOf_absent _ _ Hno).
Qed.

Lemma shortenSha_spec_witness :
  shortenSha stagedUncommittedSha = "index" /\
  shortenSha uncommittedSha = "" /\
  shortenSha "0123456789abcdef0123456789abcdef01234567^2" = "012345^2" /\
  shortenSha "ab^cdefghijk" = "ab^cdefg" /\
  shortenSha "0123456789abcdef0123456789abcdef01234567" = "01234567".
Proof.
  split; [|split; [|split; [|split]]].
  - apply (proj1 (shortenSha_spec stagedUncommittedSha)). vm_compute; reflexivity.
  - apply (proj1 (proj2 (shortenSha_spec uncommittedSha))); vm_compute; reflexivity.
  - apply (proj1 (proj2 (proj2 (shortenSha_spec
      "0123456789abcdef0123456789abcdef01234567^2")) eq_refl eq_refl))
      with (pre := "0123456789abcdef0123456789abcdef01234567") (suf := "2");
      [reflexivity | reflexivity | simpl; lia].
  - apply (proj1 (proj2 (proj2 (shortenSha_spec "ab^cdefghijk")) eq_refl eq_refl))
      with (pre := "ab") (suf := "cdefghijk");
      [reflexivity | reflexivity | simpl; lia].
  - apply (proj2 (proj2 (proj2 (shortenSha_spec
      "0123456789abcdef0123456789abcdef01234567")) eq_refl eq_refl)).
    vm_compute; reflexivity.
Defined.

(** ** Path splitting *)

Lemma toLowerCase_append (a b : string) :
  Js.toLowerCase (a +:+ b) = Js.toLowerCase a +:+ Js.toLowerCase b.
Proof. induction a as [|c a IH]; simpl; [reflexivity | now rewrite IH]. Qed.

Lemma toLowerCase_length (s : string) :
  String.length (Js.toLowerCase s) = String.length s.
Proof. induction s as [|c s IH]; simpl; [reflexivity | now rewrite IH]. Qed.

Lemma startsWith_iff (p s : string) :
  Js.startsWith p s = true <-> exists rest, s = p +:+ rest.
Proof.
  revert s; induction p as [|a p IH]; intros s; simpl.
  - split; eauto.
  - destruct s as [|b s]; [split; [discriminate | intros [? [=]]]|].
    rewrite andb_true_iff, Ascii.eqb_eq, IH. split.
    + intros [-> [rest ->]]. eauto.
    + intros [rest [= -> ->]]. eauto.
Qed.

Lemma substring_to_append (pre s : string) :
  Js.substring_to (String.length pre) (pre +:+ s) = pre.
Proof. induction pre as [|c pre IH]; simpl; [now destruct s | now rewrite IH]. Qed.

Lemma startsWith_lower (file prefix : string) :
  Js.startsWith (Js.toLowerCase prefix) (Js.toLowerCase file) = true <->
  exists rest, under_root file prefix rest.
Proof.
  rewrite startsWith_iff. split.
  - intros [x Hx].
    assert (Hlen : String.length prefix <= String.length file).
    { rewrite <- (toLowerCase_length file), Hx, append_length, toLowerCase_length. lia. }
    exists (Js.substring_from (String.length prefix) file),
           (Js.substring_to (String.length prefix) file).
    split; [apply substring_split|].
    rewrite (substring_split (String.length prefix) file), toLowerCase_append in Hx.
    apply append_inj_length in Hx; [tauto|].
    rewrite !toLowerCase_length.
    clear Hx. revert Hlen. generalize (String.length prefix) as n.
    induction file as [|c file IH]; intros [|n]; simpl; intros Hn;
      try reflexivity; try lia.
    rewrite IH by lia. reflexivity.
  - intros (rest & pre & -> & Hpre).
    exists (Js.toLowerCase rest). now rewrite toLowerCase_append, Hpre.
Qed.

(** On strings whose code units are all below 256, where lower-casing
    keeps lengths: the two examples of the specification, and in general,
    with a root supplied (a non-empty string), both paths are normalized
    to forward slashes, the normalized root is returned, and the file name
    loses the root with its trailing slash when it starts with it up to
    case, and is returned whole otherwise. *)
Theorem splitPath_spec :
  splitPath "/repo/src/a.ts" (Some "/repo") true = ("src/a.ts", Some "/repo") /\
  splitPath "/a/b/c.ts" None true = ("c.ts", Some "/a/b") /\
  forall (fileName repoPath : string) (extract : bool),
    repoPath <> "" ->
    let file := Js.replace_backslashes fileName in
    let root := Js.replace_backslashes repoPath in
    let prefix := if Js.endsWith_char "/" root then root else root +:+ "/" in
    snd (splitPath fileName (Some repoPath) extract) = Some root /\
    (forall rest, under_root file prefix rest ->
       fst (splitPath fileName (Some repoPath) extract) = rest) /\
    ((forall rest, ~ under_root file prefix rest) ->
       fst (splitPath fileName (Some repoPath) extract) = file).
Proof.
  split; [reflexivity|]. split; [reflexivity|].
  intros fileName repoPath extract Hne file root prefix.
  destruct repoPath as [|c0 rp]; [contradiction|].
  assert (Hsplit : splitPath fileName (Some (String c0 rp)) extract =
            (if Js.startsWith (Js.toLowerCase prefix) (Js.toLowerCase file)
             then Js.substring_from (String.length (Js.toLowerCase prefix)) file
             else file, Some root)) by reflexivity.
  rewrite Hsplit. clearbody file root prefix. simpl.
  split; [reflexivity|]. split.
  - intros rest Hu.
    assert (Hs : Js.startsWith (Js.toLowerCase prefix) (Js.toLowerCase file) = true)
      by (apply startsWith_lower; eauto).
    rewrite Hs. destruct Hu as (pre & -> & Hpre).
    rewrite <- Hpre, toLowerCase_length. apply substring_from_append.
  - intros Hnot.
    destruct (Js.startsWith (Js.toLowerCase prefix) (Js.toLowerCase file)) eqn:Hs;
      [|reflexivity].
    apply startsWith_lower in Hs as [rest Hu]. now destruct (Hnot rest).
Qed.

Lemma splitPath_spec_witness :
  snd (splitPath "C:\Repo\Src\a.ts" (Some "c:/repo") true) = Some "c:/repo" /\
  fst (splitPath "C:\Repo\Src\a.ts" (Some "c:/repo") true) = "Src/a.ts".
Proof.
  assert (Hne : "c:/repo" <> "") by discriminate.
  split.
  - apply (proj2 (proj2 splitPath_spec) "C:\Repo\Src\a.ts" "c:/repo" true Hne).
  - apply (proj2 (proj2 splitPath_spec) "C:\Repo\Src\a.ts" "c:/repo" true Hne).
    exists "C:/Repo/". split; reflexivity.
Defined.

(** ** [splitPath] on code units of any width *)

Lemma units_append (a b : string) : Utf16.units (a +:+ b) = Utf16.units a ++ Utf16.units b.
Proof.
  unfold Utf16.units. induction a as [|c a IH]; simpl; [reflexivity | now rewrite IH].
Qed.

Lemma units_length (s : string) : length (Utf16.units s) = String.length s.
Proof.
  unfold Utf16.units. induction s as [|c s IH]; simpl; [reflexivity | now rewrite IH].
Qed.

Lemma units_eqb (c d : ascii) : (N_of_ascii c =? N_of_ascii d)%N = Ascii.eqb c d.
Proof.
  destruct (Ascii.eqb_spec c d) as [->|Hne].
  - apply N.eqb_refl.
  - apply N.eqb_neq. intros Heq. apply Hne.
    rewrite <- (ascii_N_embedding c), <- (ascii_N_embedding d). now rewrite Heq.
Qed.

Lemma units_replace_backslashes (s : string) :
  Utf16.replace_backslashes (Utf16.units s) = Utf16.units (Js.replace_backslashes s).
Proof.
  unfold Utf16.units, Utf16.replace_backslashes.
  induction s as [|c s IH]; simpl; [reflexivity|]. rewrite IH. f_equal.
  change 92%N with (N_of_ascii "\"%char). rewrite units_eqb.
  now destruct (Ascii.eqb c "\"%char).
Qed.

Lemma units_lower_char (c : ascii) :
  Utf16.lower_unit (N_of_ascii c) = Some [N_of_ascii (Js.lower_char c)].
Proof. destruct c as [[] [] [] [] [] [] [] []]; vm_compute; reflexivity. Qed.

Lemma units_toLowerCase (s : string) :
  Utf16.toLowerCase (Utf16.units s) = Some (Utf16.units (Js.toLowerCase s)).
Proof.
  unfold Utf16.units. induction s as [|c s IH]; [reflexivity|].
  cbn [list_ascii_of_string map Utf16.toLowerCase Js.toLowerCase].
  now rewrite units_lower_char, IH.
Qed.

Lemma units_last (s : string) : last (Utf16.units s) = N_of_ascii <$> Js.last_char s.
Proof.
  unfold Utf16.units. induction s as [|c s IH]; [reflexivity|].
  destruct s as [|d s]; [reflexivity|]. exact IH.
Qed.

Lemma units_endsWith (s : string) :
  Utf16.endsWith_slash (Utf16.units s) = Js.endsWith_char "/" s.
Proof.
  unfold Utf16.endsWith_slash, Js.endsWith_char. rewrite units_last.
  destruct (Js.last_char s) as [d|]; [|reflexivity]. simpl.
  change 47%N with (N_of_ascii "/"%char). apply units_eqb.
Qed.

Lemma units_startsWith (p s : string) :
  Utf16.startsWith (Utf16.units p) (Utf16.units s) = Js.startsWith p s.
Proof.
  unfold Utf16.units. revert s; induction p as [|a p IH]; intros s; [reflexivity|].
  destruct s as [|b s]; [reflexivity|].
  cbn [list_ascii_of_string map Utf16.startsWith Js.startsWith].
  now rewrite units_eqb, IH.
Qed.

Lemma units_substring_from (n : nat) (s : string) :
  drop n (Utf16.units s) = Utf16.units (Js.substring_from n s).
Proof.
  unfold Utf16.units. revert s; induction n as [|n IH]; intros s; [reflexivity|].
  destruct s as [|c s]; [reflexivity|]. exact (IH s).
Qed.

(** On strings whose code units are all below 256 the code-unit model of
    [splitPath] and the one on [string] agree. *)
Lemma splitPath_units (fileName repoPath : string) (extract : bool) :
  repoPath <> "" ->
  Utf16.splitPath (Utf16.units fileName) (Utf16.units repoPath)
  = Some (Utf16.units (fst (splitPath fileName (Some repoPath) extract)),
          Utf16.units (Js.replace_backslashes repoPath)).
Proof.
  intros Hne. destruct repoPath as [|c0 rp]; [contradiction|].
  set (file := Js.replace_backslashes fileName).
  set (root := Js.replace_backslashes (String c0 rp)).
  set (prefix := if Js.endsWith_char "/" root then root else root +:+ "/").
  assert (Hsplit : fst (splitPath fileName (Some (String c0 rp)) extract) =
            (if Js.startsWith (Js.toLowerCase prefix) (Js.toLowerCase file)
             then Js.substring_from (String.length (Js.toLowerCase prefix)) file
             else file)) by reflexivity.
  rewrite Hsplit. unfold Utf16.splitPath.
  rewrite !units_replace_backslashes. fold file root.
  rewrite units_endsWith.
  assert (Hprefix : (if Js.endsWith_char "/" root then Utf16.units root
                     else Utf16.units root ++ [47%N]) = Utf16.units prefix).
  { subst prefix. destruct (Js.endsWith_char "/" root); [reflexivity|].
    now rewrite units_append. }
  rewrite Hprefix, !units_toLowerCase, units_startsWith, units_length.
  destruct (Js.startsWith _ _); [|reflexivity].
  now rewrite units_substring_from.
Qed.

(** C7 (code bug): [splitPath] cuts the file name at the length of the
    lower-cased root, not of the root.  The capital I with a dot above
    (U+0130) lower-cases to two code units, so for the file [/İ/a.ts]
    under the root [/İ] the lower-cased root (slash, i, U+0307, slash)
    has four code units where the root with its slash has three, and the
    file name comes back as [.ts], not as [a.ts]. *)
Theorem splitPath_cuts_at_lowered_length :
  let fileName := [47; 304; 47; 97; 46; 116; 115]%N in
  let repoPath := [47; 304]%N in
  Utf16.startsWith (repoPath ++ [47%N]) fileName = true /\
  drop (length (repoPath ++ [47%N])) fileName = Utf16.units "a.ts" /\
  Utf16.toLowerCase (repoPath ++ [47%N]) = Some [47; 105; 775; 47]%N /\
  Utf16.splitPath fileName repoPath = Some (Utf16.units ".ts", repoPath).
Proof. vm_compute. auto. Qed.

(** ** Error classification *)

Lemma handler_resolves (ex : Error) (w : RegExp) :
  In w GitWarnings -> test w (toString ex) = true ->
  gitCommandDefaultErrorHandler ex = Resolved "".
Proof.
  intros Hin Ht. unfold gitCommandDefaultErrorHandler.
  assert (H : existsb (fun warning => test warning (toString ex)) GitWarnings = true)
    by (apply existsb_exists; eauto).
  now rewrite H.
Qed.

Lemma handler_rejects (ex : Error) :
  (forall w, In w GitWarnings -> test w (toString ex) = false) ->
  gitCommandDefaultErrorHandler ex = Rejected ex.
Proof.
  intros Hall. unfold gitCommandDefaultErrorHandler.
  destruct (existsb _ GitWarnings) eqn:H; [|reflexivity].
  apply existsb_exists in H as (w & Hin & Ht). rewrite (Hall w Hin) in Ht. discriminate.
Qed.

Lemma test_literal (l pre post : string) :
  test (unanchored (lit l)) (pre +:+ l +:+ post) = true.
Proof. apply test_unanchored. exists pre, l, post. split; [reflexivity | now apply matches_lit]. Qed.

Lemma test_path_pattern (tail pre x post : string) :
  Js.every is_dot x = true ->
  test (unanchored (Cat (lit "Path '") (Cat dots (lit tail))))
       (pre +:+ ("Path '" +:+ x +:+ tail) +:+ post) = true.
Proof.
  intros Hx. apply test_unanchored. exists pre, ("Path '" +:+ x +:+ tail), post.
  split; [reflexivity|]. constructor; [now apply matches_lit|].
  constructor; [now apply matches_star_cls | now apply matches_lit].
Qed.

Section ExecutorFacts.

Variable git_path : string.
Variable process_env : gmap string string.
Variable iconv_decode : string -> string -> string.

(** C4: when the invocation fails and [willHandleErrors] is unset, the call
    resolves to the empty string if the failure message matches one of the
    expected-warning patterns, and re-raises the original failure if none
    matches.  The patterns are searched for anywhere in the message: the
    five literal texts, and the two [Path '...'] texts with any run of
    characters of one line between the quotes. *)
Theorem gitCommand_classifies_failure (st : ExecState) (options : GitCommandOptions)
    (command : string) (ex : Error) :
  willHandleErrors options = false ->
  let result :=
    gitCommand_end options
      (snd (gitCommandCore_end iconv_decode st options command (Rejected ex))) in
  ((exists w, In w GitWarnings /\ test w (toString ex) = true) -> result = Resolved "") /\
  ((forall w, In w GitWarnings -> test w (toString ex) = false) -> result = Rejected ex) /\
  (forall l pre post,
     In l ["Not a git repository"; "is outside repository"; "no such path";
           "does not have any commits"; "no upstream configured for branch"] ->
     toString ex = pre +:+ l +:+ post -> result = Resolved "") /\
  (forall tail pre x post,
     In tail ["' does not exist in"; "' exists on disk, but not in"] ->
     Js.every is_dot x = true ->
     toString ex = pre +:+ ("Path '" +:+ x +:+ tail) +:+ post -> result = Resolved "").
Proof.
  intros Hw result. unfold result, gitCommand_end. rewrite Hw. simpl.
  split; [|split; [|split]].
  - intros (w & Hin & Ht). now apply (handler_resolves ex w).
  - apply handler_rejects.
  - intros l pre post Hl Hmsg.
    apply (handler_resolves ex (unanchored (lit l))).
    + simpl in Hl. unfold GitWarnings.
      destruct Hl as [<-|[<-|[<-|[<-|[<-|[]]]]]]; simpl; tauto.
    + rewrite Hmsg. apply test_literal.
  - intros tail pre x post Ht Hx Hmsg.
    apply (handler_resolves ex (unanchored (Cat (lit "Path '") (Cat dots (lit tail))))).
    + simpl in Ht. unfold GitWarnings.
      destruct Ht as [<-|[<-|[]]]; simpl; tauto.
    + rewrite Hmsg. now apply test_path_pattern.
Qed.

End ExecutorFacts.

Lemma gitCommand_classifies_failure_witness :
  let options := {| cwd := Some "/repo"; env := None; encoding := None;
                    stdin := None; willHandleErrors := false |} in
  gitCommand_end options
    (snd (gitCommandCore_end (fun s _ => s) exec_init options "(/repo): git status"
            (Rejected {| message := "fatal: Not a git repository" |}))) = Resolved "" /\
  gitCommand_end options
    (snd (gitCommandCore_end (fun s _ => s) exec_init options "(/repo): git status"
            (Rejected {| message := "spawn git ENOENT" |})))
  = Rejected {| message := "spawn git ENOENT" |}.
Proof.
  intros options. split.
  - apply (gitCommand_classifies_failure (fun s _ => s) exec_init options
             "(/repo): git status" {| message := "fatal: Not a git repository" |} eq_refl).
    exists (unanchored (lit "Not a git repository")).
    split; [simpl; tauto | vm_compute; reflexivity].
  - apply (gitCommand_classifies_failure (fun s _ => s) exec_init options
             "(/repo): git status" {| message := "spawn git ENOENT" |} eq_refl).
    intros w Hin. simpl in Hin.
    repeat (destruct Hin as [<- | Hin]; [vm_compute; reflexivity|]). destruct Hin.
Defined.

(** ** Log and stash formats *)

(** C6 (as stated, refuted): replacing [parents %P] by
    [reflog-selector %gd] in the log format does not give the stash
    format: the result still has the [author %an] field, which the stash
    format has not. *)
Lemma stash_format_is_not_log_shape :
  match format_of defaultLogParams, format_of defaultStashParams with
  | Some logf, Some stashf =>
      substitute_field "parents %P" "reflog-selector %gd" (fields logf)
      = ["%H -"; "author %an"; "author-date %at"; "reflog-selector %gd";
         "summary %B"; "filename ?"] /\
      fields stashf
      = ["%H -"; "author-date %at"; "reflog-selector %gd"; "summary %B"; "filename ?"] /\
      bool_decide
        (fields stashf
         = substitute_field "parents %P" "reflog-selector %gd" (fields logf)) = false /\
      existsb (String.eqb "author %an") (fields stashf) = false
  | _, _ => False
  end.
Proof. vm_compute. auto. Qed.

(** C6 (amended): the stash format is the log format with
    [reflog-selector %gd] in the place of [parents %P] and without the
    [author %an] field; the other fields and labels are the same, in the
    same order. *)
Theorem stash_format_shape :
  match format_of defaultLogParams, format_of defaultStashParams with
  | Some logf, Some stashf =>
      logf = "%H -%nauthor %an%nauthor-date %at%nparents %P%nsummary %B%nfilename ?" /\
      fields logf
      = ["%H -"; "author %an"; "author-date %at"; "parents %P"; "summary %B"; "filename ?"] /\
      fields stashf
      = substitute_field "parents %P" "reflog-selector %gd"
          (drop_field "author %an" (fields logf)) /\
      stashf
      = Js.join "%n"
          (substitute_field "parents %P" "reflog-selector %gd"
             (drop_field "author %an" (fields logf)))
  | _, _ => False
  end.
Proof. vm_compute. auto. Qed.

(** ** [Git.show] on the sentinels *)

Lemma colon_is_not_uncommitted : isUncommitted ":" = false.
Proof. reflexivity. Qed.

(** C9: for an id that satisfies [isUncommitted] but not
    [isStagedUncommitted], [Git.show] throws ["sha=... is uncommitted"]
    before any invocation; an id that satisfies [isStagedUncommitted] is
    replaced by [":"] and the invocation [show :./file] goes ahead. *)
Theorem show_on_sentinels (repoPath : option string) (fileName branchOrSha : string)
    (options_encoding : option string) :
  (isUncommitted branchOrSha = true -> isStagedUncommitted branchOrSha = false ->
   show_begin repoPath fileName branchOrSha options_encoding
   = inl {| message := "sha=" +:+ branchOrSha +:+ " is uncommitted" |}) /\
  (isStagedUncommitted branchOrSha = true ->
   show_begin repoPath fileName branchOrSha options_encoding
   = show_begin repoPath fileName ":" options_encoding /\
   exists opts,
     show_begin repoPath fileName branchOrSha options_encoding
     = inr (opts, ["show"; ":./" +:+ fst (splitPath fileName repoPath true)]) /\
     cwd opts = snd (splitPath fileName repoPath true) /\
     willHandleErrors opts = true).
Proof.
  unfold show_begin. destruct (splitPath fileName repoPath true) as [file root].
  split.
  - now intros Hun ->; rewrite Hun.
  - intros ->. change (isStagedUncommitted ":") with false. cbv iota.
    rewrite colon_is_not_uncommitted. split; [reflexivity|].
    eexists. split; [reflexivity|]. split; reflexivity.
Qed.

Lemma show_on_sentinels_witness :
  show_begin (Some "/repo") "/repo/src/a.ts" uncommittedSha None
  = inl {| message := "sha=0000000000000000000000000000000000000000 is uncommitted" |} /\
  show_begin (Some "/repo") "/repo/src/a.ts" stagedUncommittedSha None
  = show_begin (Some "/repo") "/repo/src/a.ts" ":" None.
Proof.
  split.
  - apply (proj1 (show_on_sentinels (Some "/repo") "/repo/src/a.ts" uncommittedSha None));
      vm_compute; reflexivity.
  - apply (proj2 (show_on_sentinels (Some "/repo") "/repo/src/a.ts"
                    stagedUncommittedSha None)).
    vm_compute; reflexivity.
Defined.

(** ** Single flight *)

Section SingleFlight.

Variable git_path : string.
Variable process_env : gmap string string.
Variable iconv_decode : string -> string -> string.

Abbreviation core_begin := (gitCommandCore_begin git_path process_env).
Abbreviation core_end := (gitCommandCore_end iconv_decode).

Lemma begin_key (st : ExecState) (options : GitCommandOptions) (args : list string) :
  (core_begin st options args).1.2 = command_of options (with_safety_flags args).
Proof. unfold gitCommandCore_begin. now destruct (_ !! _). Qed.

(** After a call the key is registered with the promise the caller awaits. *)
Lemma begin_registers (st : ExecState) (options : GitCommandOptions) (args : list string) :
  let '(st1, command, promise) := core_begin st options args in
  pendingCommands st1 !! command = Some promise.
Proof.
  unfold gitCommandCore_begin.
  destruct (pendingCommands st !! _) eqn:E; simpl; [assumption|].
  apply lookup_insert_eq.
Qed.

(** A call whose key is free spawns exactly one process. *)
Lemma begin_spawns_when_free (st : ExecState) (options : GitCommandOptions)
    (args : list string) :
  pendingCommands st !! command_of options (with_safety_flags args) = None ->
  let '(st1, _, promise) := core_begin st options args in
  length (spawned st1) = S (length (spawned st)) /\ promise = length (spawned st).
Proof.
  intros H. unfold gitCommandCore_begin. rewrite H. simpl.
  rewrite length_app. simpl. lia.
Qed.

(** A call whose key is registered spawns nothing and awaits the
    registered promise. *)
Lemma begin_joins_when_pending (st : ExecState) (options : GitCommandOptions)
    (args : list string) (promise : nat) :
  pendingCommands st !! command_of options (with_safety_flags args) = Some promise ->
  core_begin st options args
  = (st, command_of options (with_safety_flags args), promise).
Proof. intros H. unfold gitCommandCore_begin. now rewrite H. Qed.

(** A resolved command is taken out of the map, whatever the encoding. *)
Lemma end_resolved_unregisters (st : ExecState) (options : GitCommandOptions)
    (command s : string) :
  pendingCommands (core_end st options command (Resolved s)).1 !! command = None /\
  spawned (core_end st options command (Resolved s)).1 = spawned st.
Proof.
  unfold gitCommandCore_end.
  destruct (_ || _); simpl; split; try reflexivity; apply lookup_delete_eq.
Qed.

(** C10: the key is made of the working directory and the arguments
    only.  Two calls that agree on these and differ in encoding,
    environment, stdin (or error handling) have the same key, and the
    second, made while the first is in flight, leaves the store as it is
    (no process is spawned) and awaits the promise of the first. *)
Theorem key_ignores_other_options (st : ExecState) (dir : option string)
    (args : list string)
    (env1 env2 : option (gmap string string)) (enc1 enc2 : option string)
    (in1 in2 : option nat) (wh1 wh2 : bool) :
  let o1 := {| cwd := dir; env := env1; encoding := enc1; stdin := in1;
               willHandleErrors := wh1 |} in
  let o2 := {| cwd := dir; env := env2; encoding := enc2; stdin := in2;
               willHandleErrors := wh2 |} in
  command_of o1 (with_safety_flags args) = command_of o2 (with_safety_flags args) /\
  (core_begin st o1 args).1.2 = command_of o1 (with_safety_flags args) /\
  core_begin (core_begin st o1 args).1.1 o2 args = core_begin st o1 args.
Proof.
  intros o1 o2. split; [reflexivity|]. split; [apply begin_key|].
  pose proof (begin_registers st o1 args) as Hreg.
  pose proof (begin_key st o1 args) as Hkey.
  destruct (core_begin st o1 args) as [[st1 command] promise]. simpl in *. subst command.
  exact (begin_joins_when_pending st1 o2 args promise Hreg).
Qed.

(** C2 (the defect): a command that fails is never taken out of the map.
    The rejection leaves the store as it is, so the key stays registered
    with the rejected promise, and an identical call made afterwards
    spawns nothing and awaits that same promise. *)
Theorem rejected_command_stays_pending (st : ExecState) (options : GitCommandOptions)
    (args : list string) (ex : Error) :
  let '(st1, command, promise) := core_begin st options args in
  let '(st2, r) := core_end st1 options command (Rejected ex) in
  r = Rejected ex /\
  pendingCommands st2 !! command = Some promise /\
  core_begin st2 options args = (st2, command, promise).
Proof.
  pose proof (begin_registers st options args) as Hreg.
  pose proof (begin_key st options args) as Hkey.
  destruct (core_begin st options args) as [[st1 command] promise]. simpl in *.
  split; [reflexivity|]. split; [assumption|]. subst command.
  now apply begin_joins_when_pending.
Qed.

(** The intended behaviour on success: the key is free again, and the
    next identical call spawns a fresh process. *)
Lemma resolved_command_respawns (st : ExecState) (options : GitCommandOptions)
    (args : list string) (s : string) :
  let b1 := core_begin st options args in
  let st2 := (core_end b1.1.1 options b1.1.2 (Resolved s)).1 in
  let b3 := core_begin st2 options args in
  pendingCommands st2 !! b1.1.2 = None /\
  length (spawned b3.1.1) = S (length (spawned b1.1.1)) /\
  b3.2 = length (spawned b1.1.1).
Proof.
  intros b1 st2 b3.
  destruct (end_resolved_unregisters b1.1.1 options b1.1.2 s) as [Hfree Hsp].
  fold st2 in Hfree, Hsp. split; [exact Hfree|].
  assert (Hk : b1.1.2 = command_of options (with_safety_flags args)) by apply begin_key.
  rewrite Hk in Hfree.
  pose proof (begin_spawns_when_free st2 options args Hfree) as H.
  subst b3. destruct (core_begin st2 options args) as [[st3 c3] p3].
  simpl. now rewrite <- Hsp.
Qed.

End SingleFlight.

(** The failing run, step by step: one call, its process fails, the same
    call again.  One process was spawned; both callers get the failure;
    the key is still in the map. *)
Example stale_failure_is_served_again :
  let options := {| cwd := Some "/repo"; env := None; encoding := None;
                    stdin := None; willHandleErrors := true |} in
  let boom := {| message := "spawn git ENOENT" |} in
  let sys :=
    Git.run "git" ∅ (fun s _ => s)
      [Call 1 options ["status"]; Settle 0 (Rejected boom); Call 2 options ["status"]]
      sys_init in
  length (spawned (exec sys)) = 1%nat /\
  returned sys = [(1%nat, Rejected boom); (2%nat, Rejected boom)] /\
  pendingCommands (exec sys)
    !! "(/repo): git -c core.quotepath=false -c color.ui=false status" = Some 0%nat.
Proof. vm_compute. auto. Qed.

(** The same run with a process that succeeds: the third call spawns. *)
Example completed_command_runs_again :
  let options := {| cwd := Some "/repo"; env := None; encoding := None;
                    stdin := None; willHandleErrors := true |} in
  let sys :=
    Git.run "git" ∅ (fun s _ => s)
      [Call 1 options ["status"]; Call 2 options ["status"];
       Settle 0 (Resolved "M a.ts"); Call 3 options ["status"]]
      sys_init in
  length (spawned (exec sys)) = 2%nat /\
  returned sys = [(1%nat, Resolved "M a.ts"); (2%nat, Resolved "M a.ts")] /\
  pendingCommands (exec sys)
    !! "(/repo): git -c core.quotepath=false -c color.ui=false status" = Some 1%nat.
Proof. vm_compute. auto. Qed.

(** ** The context tracker *)

Import Tracker.

Lemma updateBlameability_recomputes (t : Tracker) (reason : BlameabilityChangeReason)
    (force : bool) :
  force = true \/ published_is_stored t ->
  let t' := updateBlameability t reason None force in
  published_is_stored t' /\
  blameable (state (context t'))
  = js_and (tracked (state (context t))) (negb (dirty (state (context t)))) /\
  tracked (state (context t')) = tracked (state (context t)) /\
  dirty (state (context t')) = dirty (state (context t)) /\
  suspended t' = suspended t.
Proof.
  destruct t as [[ed rp [b d tr] u] f sus].
  unfold published_is_stored, published, updateBlameability. simpl. intros H.
  destruct force; simpl; [auto|]. destruct H as [H|H]; [discriminate|].
  case_bool_decide; simpl; auto.
Qed.

Lemma updateBlameability_forces_false (t : Tracker) (reason : BlameabilityChangeReason) :
  published_is_stored t ->
  let t' := updateBlameability t reason (Some false) false in
  published_is_stored t' /\
  blameable (state (context t')) = Some false /\
  tracked (state (context t')) = tracked (state (context t)) /\
  dirty (state (context t')) = dirty (state (context t)) /\
  suspended t' = suspended t.
Proof.
  destruct t as [[ed rp [b d tr] u] f sus].
  unfold published_is_stored, published, updateBlameability. simpl. intros H.
  case_bool_decide; simpl; auto.
Qed.

Lemma js_and_true (a : option bool) (b : bool) :
  js_and a b = Some true -> a = Some true /\ b = true.
Proof. destruct a as [[|]|]; simpl; intros [=]; auto. Qed.

Lemma updateContext_end_fully_coherent (t : Tracker) (reason : BlameabilityChangeReason)
    (force b : bool) :
  force = true \/ published_is_stored t ->
  fully_coherent (updateContext_end t reason force b) /\
  suspended (updateContext_end t reason force b) = suspended t.
Proof.
  intros H. unfold updateContext_end.
  set (t1 := if bool_decide _ then t else _).
  assert (H1 : (force = true \/ published_is_stored t1) /\ suspended t1 = suspended t).
  { subst t1. case_bool_decide; [auto|]. destruct t as [[ed rp [bl d tr] u] f sus].
    unfold published_is_stored, published in *. simpl in *. auto. }
  destruct H1 as [H1 Hs].
  destruct (updateBlameability_recomputes t1 reason force H1) as (Hp & Hb & Ht & Hd & Hsus).
  split; [|congruence]. split; [assumption|].
  rewrite Hb, Ht, Hd. intros Hj. apply js_and_true in Hj as [-> Hn].
  apply negb_true_iff in Hn. auto.
Qed.

Lemma fully_coherent_coherent (t : Tracker) : fully_coherent t -> coherent t.
Proof. intros [H1 H2]. split; [assumption | intros H; now apply H2]. Qed.

(** Changes that leave the stored flags and the fired events alone. *)
Lemma coherent_frame (t t' : Tracker) :
  fired t' = fired t ->
  blameable (state (context t')) = blameable (state (context t)) ->
  tracked (state (context t')) = tracked (state (context t)) ->
  coherent t -> coherent t'.
Proof.
  unfold coherent, published_is_stored, published. intros -> -> ->. auto.
Qed.

Lemma fully_coherent_frame (t t' : Tracker) :
  fired t' = fired t ->
  state (context t') = state (context t) ->
  fully_coherent t -> fully_coherent t'.
Proof.
  unfold fully_coherent, published_is_stored, published. intros -> ->. auto.
Qed.

Lemma awaits_tracked_suspend (t : Tracker) (k : Continuation) :
  awaits_tracked (suspend t k) = awaits_tracked t || is_tracked_lookup k.
Proof.
  unfold awaits_tracked, suspend. simpl. rewrite existsb_app. simpl.
  now rewrite orb_false_r.
Qed.

Lemma awaits_tracked_resumed (t : Tracker) (i : nat) (k : Continuation) :
  suspended t !! i = Some k ->
  awaits_tracked t
  = existsb is_tracked_lookup (take i (suspended t) ++ drop (S i) (suspended t))
    || is_tracked_lookup k.
Proof.
  intros Hk. unfold awaits_tracked.
  rewrite <- (take_drop_middle _ _ _ Hk) at 1.
  rewrite !existsb_app. simpl.
  destruct (existsb _ (take i _)), (is_tracked_lookup k), (existsb _ (drop (S i) _));
    reflexivity.
Qed.

Lemma updateContext_between_lookups (t : Tracker) (reason : BlameabilityChangeReason)
    (e : option TextEditor) (force : bool) :
  force = true \/ e = editor (context t) ->
  coherent t ->
  (awaits_tracked t = false -> fully_coherent t) ->
  awaits_tracked (updateContext t reason e force) = false ->
  fully_coherent (updateContext t reason e force).
Proof.
  intros Hf Hc Hfull. unfold updateContext.
  destruct (force || bool_decide (editor (context t) <> e)) eqn:Hb.
  - assert (Hforce : force = true).
    { destruct Hf as [-> | ->]; [reflexivity|].
      rewrite bool_decide_eq_false_2 in Hb by auto. now rewrite orb_false_r in Hb. }
    destruct e as [e|].
    + rewrite awaits_tracked_suspend. simpl. rewrite orb_false_r. intros Hno.
      apply (fully_coherent_frame t); [reflexivity | reflexivity | now apply Hfull].
    + intros _. apply updateContext_end_fully_coherent. auto.
  - destruct (uri (context t)).
    + rewrite awaits_tracked_suspend. simpl. rewrite orb_true_r. discriminate.
    + intros _. apply updateContext_end_fully_coherent. right. apply Hc.
Qed.

Lemma continue_between_lookups (t : Tracker) (k : Continuation) (v : Settlement) :
  fits k v = true ->
  coherent t ->
  (is_tracked_lookup k = false -> awaits_tracked t = false -> fully_coherent t) ->
  awaits_tracked (continue t k v) = false ->
  fully_coherent (continue t k v).
Proof.
  intros Hfit Hc Hfull.
  destruct k as [reason e force|reason e force|reason force];
    destruct v as [r|u d|b|]; try discriminate Hfit; simpl.
  - rewrite awaits_tracked_suspend. simpl. rewrite orb_false_r.
    destruct r as [r|]; intros Hno.
    + apply (fully_coherent_frame t); [reflexivity | reflexivity | now apply Hfull].
    + apply (fully_coherent_frame t); [reflexivity | reflexivity | now apply Hfull].
  - rewrite awaits_tracked_suspend. simpl. rewrite orb_true_r. discriminate.
  - intros _. apply updateContext_end_fully_coherent. right. apply Hc.
Qed.

Section TrackerFacts.

Variable getCacheEntryKey : string -> string.
Variable isTextEditor : TextEditor -> bool.
Variable documentEquals : string -> string -> bool.

Abbreviation tstep := (Tracker.step getCacheEntryKey isTextEditor documentEquals).
Abbreviation trun := (Tracker.run getCacheEntryKey isTextEditor documentEquals).
Abbreviation tsucceed :=
  (Tracker.lookups_succeed getCacheEntryKey isTextEditor documentEquals).
Abbreviation trun_handled :=
  (Tracker.run_handled getCacheEntryKey isTextEditor documentEquals).

Lemma updateContext_coherent (t : Tracker) (reason : BlameabilityChangeReason)
    (e : option TextEditor) (force : bool) :
  force = true \/ e = editor (context t) ->
  coherent t -> coherent (updateContext t reason e force).
Proof.
  intros Hf Hc. unfold updateContext.
  destruct (force || bool_decide (editor (context t) <> e)) eqn:Hb.
  - assert (Hforce : force = true).
    { destruct Hf as [-> | ->]; [reflexivity|].
      rewrite bool_decide_eq_false_2 in Hb by auto. now rewrite orb_false_r in Hb. }
    destruct e as [e|].
    + apply (coherent_frame t); solve [reflexivity | assumption].
    + apply fully_coherent_coherent, updateContext_end_fully_coherent. auto.
  - destruct (uri (context t)).
    + apply (coherent_frame t); solve [reflexivity | assumption].
    + apply fully_coherent_coherent, updateContext_end_fully_coherent.
      right. apply Hc.
Qed.

Lemma continue_coherent (t : Tracker) (k : Continuation) (v : Settlement) :
  coherent t -> coherent (continue t k v).
Proof.
  intros Hc. destruct k as [reason e force|reason e force|reason force];
    destruct v as [r|u d|b|]; simpl; try assumption.
  - destruct r; assumption.
  - apply fully_coherent_coherent, updateContext_end_fully_coherent. right. apply Hc.
Qed.

(** Every signal, a failed lookup included, keeps the tracker coherent. *)
Lemma step_coherent (t : Tracker) (sig : Signal) : coherent t -> coherent (tstep t sig).
Proof.
  intros Hc. destruct sig as [e|e|doc d| |key|i v]; simpl.
  - apply updateContext_coherent; auto.
  - unfold onActiveTextEditorChanged. case_bool_decide; [assumption|].
    destruct e as [e|]; [destruct (isTextEditor e); simpl; [|assumption]|];
      apply updateContext_coherent; auto.
  - unfold onTextDocumentChanged. destruct (editor (context t)); [|assumption].
    destruct (negb _); [assumption|]. destruct (Bool.eqb _ _); [assumption|].
    match goal with |- coherent (updateBlameability ?t1 _ _ _) =>
      destruct (updateBlameability_recomputes t1 DocumentChanged false) as (Hp & Hb & Ht & _)
    end.
    { right. apply Hc. }
    split; [assumption|]. rewrite Hb, Ht. simpl.
    intros Hj. now apply js_and_true in Hj as [-> _].
  - destruct (repo (context t)); [|assumption].
    apply updateContext_coherent; auto.
  - unfold onBlameFailed. destruct (editor (context t)); [|assumption].
    destruct (negb _); [assumption|].
    destruct (updateBlameability_forces_false t BlameFailed) as (Hp & Hb & _);
      [apply Hc|].
    split; [assumption|]. rewrite Hb. discriminate.
  - destruct (suspended t !! i); [|assumption].
    apply continue_coherent.
    apply (coherent_frame t); solve [reflexivity | assumption].
Qed.

Lemma init_coherent : coherent init.
Proof. split; [reflexivity | discriminate]. Qed.

Lemma run_coherent (sigs : list Signal) (t : Tracker) :
  coherent t -> coherent (trun sigs t).
Proof.
  revert t; induction sigs as [|sig sigs IH]; intros t Hc; simpl; [assumption|].
  apply IH. now apply step_coherent.
Qed.

Lemma settled_nothing (t : Tracker) (i : nat) (v : Settlement) :
  suspended t = [] -> tstep t (Settled i v) = t.
Proof. intros H. simpl. now rewrite H. Qed.

Lemma run_settled_nothing (t : Tracker) (vs : list Settlement) :
  suspended t = [] -> trun (map (Settled 0) vs) t = t.
Proof.
  intros H. induction vs as [|v vs IH]; [reflexivity|].
  simpl in *. now rewrite H.
Qed.

(** A forced [updateContext] run to its end from a quiet tracker. *)
Lemma forced_update_completes (t : Tracker) (e : option TextEditor) (r : option nat)
    (u : string) (d b : bool) :
  suspended t = [] ->
  let t' :=
    trun [Settled 0 (GetRepositoryIs r); Settled 0 (FromUriIs u d);
          Settled 0 (IsTrackedIs b)]
      (updateContext t EditorChanged e true) in
  fully_coherent t' /\ suspended t' = [].
Proof.
  intros Hs. destruct t as [ctx f sus]. simpl in Hs. subst sus.
  destruct e as [e|].
  - destruct r; simpl;
      match goal with |- fully_coherent (updateContext_end ?t1 ?a ?b ?c) /\ _ =>
        destruct (updateContext_end_fully_coherent t1 a b c) as [H1 H2];
          [now left | split; [exact H1 | exact H2]]
      end.
  - intros t'. subst t'.
    change [Settled 0 (GetRepositoryIs r); Settled 0 (FromUriIs u d);
            Settled 0 (IsTrackedIs b)]
      with (map (Settled 0) [GetRepositoryIs r; FromUriIs u d; IsTrackedIs b]).
    unfold updateContext. simpl orb. cbv iota.
    match goal with |- context [updateContext_end ?t1 ?a ?b ?c] =>
      destruct (updateContext_end_fully_coherent t1 a b c) as [H1 H2]; [now left|]
    end.
    simpl in H2. rewrite run_settled_nothing by exact H2. split; assumption.
Qed.

(** Handled one at a time, with every lookup succeeding, the signals
    keep the tracker fully coherent and leave nothing suspended. *)
Lemma handled_fully_coherent (t : Tracker) (h : Handled) :
  fully_coherent t -> suspended t = [] ->
  fully_coherent (trun (signals_of h) t) /\ suspended (trun (signals_of h) t) = [].
Proof.
  intros Hc Hs. destruct h as [e r u d b|e r u d b|doc d|b|key].
  - now apply forced_update_completes.
  - change (signals_of (HEditor e r u d b))
      with (ActiveTextEditorChanged e
            :: map (Settled 0) [GetRepositoryIs r; FromUriIs u d; IsTrackedIs b]).
    change (trun (ActiveTextEditorChanged e :: ?l) t)
      with (trun l (onActiveTextEditorChanged isTextEditor t e)).
    unfold onActiveTextEditorChanged.
    assert (Hquiet : fully_coherent
              (trun (map (Settled 0) [GetRepositoryIs r; FromUriIs u d; IsTrackedIs b]) t)
            /\ suspended
              (trun (map (Settled 0) [GetRepositoryIs r; FromUriIs u d; IsTrackedIs b]) t)
              = []) by (rewrite run_settled_nothing by assumption; auto).
    case_bool_decide; [exact Hquiet|].
    destruct e as [e|]; [destruct (isTextEditor e); simpl negb; cbv iota;
                         [|exact Hquiet]|];
      now apply forced_update_completes.
  - simpl. unfold onTextDocumentChanged.
    destruct (editor (context t)); [|auto].
    destruct (negb _); [auto|]. destruct (Bool.eqb _ _); [auto|].
    match goal with |- fully_coherent (updateBlameability ?t1 _ _ _) /\ _ =>
      destruct (updateBlameability_recomputes t1 DocumentChanged false)
        as (Hp & Hb & Ht & Hd & Hsus)
    end.
    { right. apply Hc. }
    split; [|now rewrite Hsus]. split; [assumption|].
    rewrite Hb, Ht, Hd. intros Hj. apply js_and_true in Hj as [-> Hn].
    apply negb_true_iff in Hn. auto.
  - change (signals_of (HRepository b))
      with (RepositoryChanged :: map (Settled 0) [IsTrackedIs b]).
    change (trun (RepositoryChanged :: ?l) t) with (trun l (tstep t RepositoryChanged)).
    simpl tstep. destruct (repo (context t));
      [|rewrite run_settled_nothing by assumption; auto].
    unfold onRepoChanged, updateContext.
    rewrite bool_decide_eq_false_2 by auto. simpl orb. cbv iota.
    destruct t as [[ed rp st [u|]] f sus]; simpl in Hs; subst sus; simpl;
      match goal with |- context [updateContext_end ?t1 ?a ?b ?c] =>
        destruct (updateContext_end_fully_coherent t1 a b c) as [H1 H2];
          [right; apply Hc|]
      end.
    + simpl in H2. split; assumption.
    + simpl in H2. rewrite H2. split; assumption.
  - simpl. unfold onBlameFailed.
    destruct (editor (context t)); [|auto]. destruct (negb _); [auto|].
    destruct (updateBlameability_forces_false t BlameFailed) as (Hp & Hb & _ & _ & Hsus);
      [apply Hc|].
    split; [|now rewrite Hsus]. split; [assumption|]. rewrite Hb. discriminate.
Qed.

Lemma run_app (s1 s2 : list Signal) (t : Tracker) :
  trun (s1 ++ s2) t = trun s2 (trun s1 t).
Proof. apply fold_left_app. Qed.

Lemma run_handled_fully_coherent (hs : list Handled) (t : Tracker) :
  fully_coherent t -> suspended t = [] ->
  fully_coherent (trun_handled hs t) /\ suspended (trun_handled hs t) = [].
Proof.
  revert t; induction hs as [|h hs IH]; intros t Hc Hs; [auto|].
  unfold run_handled in *. simpl. rewrite run_app.
  destruct (handled_fully_coherent t h Hc Hs) as [Hc' Hs']. now apply IH.
Qed.

Lemma init_fully_coherent : fully_coherent init.
Proof. split; [reflexivity | discriminate]. Qed.

(** With every lookup succeeding, each signal keeps the tracker fully
    coherent except while a call is at its tracked-state lookup. *)
Lemma step_between_lookups (t : Tracker) (sig : Signal) :
  tsucceed [sig] t ->
  coherent_between_lookups t -> coherent_between_lookups (tstep t sig).
Proof.
  intros [Hok _] [Hc Hfull]. split; [now apply step_coherent|].
  destruct sig as [e|e|doc d| |key|i v]; simpl.
  - apply updateContext_between_lookups; auto.
  - unfold onActiveTextEditorChanged. case_bool_decide; [assumption|].
    destruct e as [e|]; [destruct (isTextEditor e); simpl; [|assumption]|];
      apply updateContext_between_lookups; auto.
  - unfold onTextDocumentChanged. destruct (editor (context t)); [|assumption].
    destruct (negb _); [assumption|]. destruct (Bool.eqb _ _); [assumption|].
    intros _.
    match goal with |- fully_coherent (updateBlameability ?t1 _ _ _) =>
      destruct (updateBlameability_recomputes t1 DocumentChanged false)
        as (Hp & Hb & Ht & Hd & _)
    end.
    { right. apply Hc. }
    split; [assumption|].
    rewrite Hb, Ht, Hd. intros Hj. apply js_and_true in Hj as [-> Hn].
    apply negb_true_iff in Hn. auto.
  - destruct (repo (context t)); [|assumption].
    apply updateContext_between_lookups; auto.
  - unfold onBlameFailed. destruct (editor (context t)); [|assumption].
    destruct (negb _); [assumption|]. intros _.
    destruct (updateBlameability_forces_false t BlameFailed) as (Hp & Hb & _);
      [apply Hc|].
    split; [assumption|]. rewrite Hb. discriminate.
  - destruct (suspended t !! i) as [k|] eqn:Hk; [|assumption].
    apply continue_between_lookups.
    + exact Hok.
    + apply (coherent_frame t); solve [reflexivity | assumption].
    + intros Hnot Hno.
      apply (fully_coherent_frame t); [reflexivity | reflexivity |].
      apply Hfull. rewrite (awaits_tracked_resumed t i k Hk), Hnot.
      unfold awaits_tracked in Hno. simpl in Hno. now rewrite Hno.
Qed.

Lemma run_between_lookups (sigs : list Signal) (t : Tracker) :
  tsucceed sigs t ->
  coherent_between_lookups t -> coherent_between_lookups (trun sigs t).
Proof.
  revert t; induction sigs as [|sig sigs IH]; intros t Hok Hc; simpl; [assumption|].
  destruct Hok as [Hsig Hrest]. apply IH; [exact Hrest|].
  apply step_between_lookups; [|assumption]. split; [exact Hsig | exact I].
Qed.

Lemma init_between_lookups : coherent_between_lookups init.
Proof. split; [apply init_coherent | intros _; apply init_fully_coherent]. Qed.


End TrackerFacts.



(** ** Emission of blameability events *)

(** C8: [updateBlameability] fires nothing and leaves the tracker as it
    is when the computed value equals the stored one and emission is not
    forced; otherwise it stores the computed value and fires exactly one
    event that carries it. *)
Theorem updateBlameability_emission (t : Tracker) (reason : BlameabilityChangeReason)
    (blameable_arg : option bool) (force : bool) :
  let st := state (context t) in
  let computed :=
    match blameable_arg with
    | Some b => Some b
    | None => js_and (tracked st) (negb (dirty st))
    end in
  let t' := updateBlameability t reason blameable_arg force in
  (force = false -> blameable st = computed -> t' = t) /\
  (force = true \/ blameable st <> computed ->
   fired t'
   = {| ev_blameable := computed; ev_editor := editor (context t); ev_reason := reason |}
     :: fired t /\
   state (context t')
   = {| blameable := computed; dirty := dirty st; tracked := tracked st |} /\
   editor (context t') = editor (context t) /\
   repo (context t') = repo (context t) /\
   uri (context t') = uri (context t) /\
   suspended t' = suspended t).
Proof.
  intros st computed t'. subst t'. unfold updateBlameability. fold st. fold computed.
  split.
  - intros -> Heq. now rewrite bool_decide_eq_true_2.
  - intros [-> | Hne].
    + simpl. repeat split.
    + rewrite bool_decide_eq_false_2 by assumption. rewrite andb_false_r.
      simpl. repeat split.
Qed.

Lemma updateBlameability_emission_witness :
  let e1 := {| editor_id := 1; document_uri := "a.ts" |} in
  let t :=
    {| context :=
         {| editor := Some e1; repo := None;
            state := {| blameable := Some true; dirty := false; tracked := Some true |};
            uri := Some "a.ts" |};
       fired := [{| ev_blameable := Some true; ev_editor := Some e1;
                    ev_reason := EditorChanged |}];
       suspended := [] |} in
  updateBlameability t DocumentChanged None false = t /\
  fired (updateBlameability t BlameFailed (Some false) false)
  = {| ev_blameable := Some false; ev_editor := Some e1; ev_reason := BlameFailed |}
    :: fired t.
Proof.
  intros e1 t. split.
  - apply (proj1 (updateBlameability_emission t DocumentChanged None false));
      reflexivity.
  - apply (proj2 (updateBlameability_emission t BlameFailed (Some false) false)).
    right. discriminate.
Defined.

(** * Further properties *)

(** ** The executor's store *)

Section ExecutorStore.

Import ExecutorInvariant.

Variable git_path : string.
Variable process_env : gmap string string.
Variable iconv_decode : string -> string -> string.

Abbreviation estep := (Git.step git_path process_env iconv_decode).
Abbreviation erun := (Git.run git_path process_env iconv_decode).
Abbreviation eresume := (Git.resume iconv_decode).

Lemma resume_facts (sys : System) (w : Waiter) (s : Outcome string) :
  waiters (eresume sys w s) = waiters sys /\
  spawned (exec (eresume sys w s)) = spawned (exec sys) /\
  settled (exec (eresume sys w s)) = settled (exec sys) /\
  length (returned (eresume sys w s)) = S (length (returned sys)) /\
  pendingCommands (exec (eresume sys w s))
  = match s with
    | Resolved _ => delete (w_command w) (pendingCommands (exec sys))
    | Rejected _ => pendingCommands (exec sys)
    end.
Proof.
  unfold Git.resume, gitCommandCore_end. destruct s as [v|ex]; simpl.
  - destruct (_ || _); simpl; rewrite length_app; simpl;
      repeat split; try reflexivity; lia.
  - rewrite length_app; simpl. repeat split; try reflexivity; lia.
Qed.

Lemma resume_all_facts (woken : list Waiter) (s : Outcome string) (sys : System) :
  let sys' := fold_left (fun acc w => eresume acc w s) woken sys in
  waiters sys' = waiters sys /\
  spawned (exec sys') = spawned (exec sys) /\
  settled (exec sys') = settled (exec sys) /\
  length (returned sys') = (length (returned sys) + length woken)%nat /\
  forall k,
    pendingCommands (exec sys') !! k
    = match s with
      | Resolved _ =>
          if bool_decide (k ∈ w_command <$> woken) then None
          else pendingCommands (exec sys) !! k
      | Rejected _ => pendingCommands (exec sys) !! k
      end.
Proof.
  revert sys; induction woken as [|w woken IH]; intros sys.
  - simpl. repeat split; try reflexivity; [lia|]. intros k. now destruct s.
  - cbn [fold_left length]. rewrite fmap_cons.
    destruct (resume_facts sys w s) as (Hw & Hsp & Hse & Hr & Hp).
    destruct (IH (eresume sys w s)) as (Hw' & Hsp' & Hse' & Hr' & Hp').
    rewrite Hw', Hsp', Hse', Hr', Hw, Hsp, Hse, Hr.
    repeat split; try reflexivity; [lia|]. intros k. rewrite Hp', Hp.
    destruct s as [v|ex]; [|reflexivity].
    destruct (decide (k = w_command w)) as [->|Hne].
    + rewrite (bool_decide_eq_true_2 (w_command w ∈ w_command w :: _ ))
        by (apply elem_of_cons; auto).
      rewrite lookup_delete_eq. now case_bool_decide.
    + rewrite lookup_delete_ne by auto.
      destruct (decide (k ∈ w_command <$> woken)) as [Hin|Hnin].
      * rewrite !bool_decide_eq_true_2; [reflexivity | apply elem_of_cons; auto | assumption].
      * rewrite !bool_decide_eq_false_2; [reflexivity | | assumption].
        intros [?|?]%elem_of_cons; auto.
Qed.

Lemma well_formed_same_store (sys sys' : System) :
  exec sys' = exec sys -> waiters sys' = waiters sys ->
  well_formed sys -> well_formed sys'.
Proof.
  intros He Hw [H1 H2 H3 H4 H5].
  constructor; rewrite ?He, ?Hw; assumption.
Qed.

Lemma sys_init_well_formed : well_formed sys_init.
Proof.
  constructor; simpl; intros *; try rewrite lookup_empty; try discriminate.
  intros H. now apply elem_of_nil in H.
Qed.

Lemma call_well_formed (sys : System) (caller : nat) (options : GitCommandOptions)
    (args : list string) :
  well_formed sys -> well_formed (estep sys (Call caller options args)).
Proof.
  intros Hwf. pose proof Hwf as [H1 H2 H3 H4 H5].
  unfold Git.step, gitCommandCore_begin.
  set (command := command_of options (with_safety_flags args)).
  destruct (pendingCommands (exec sys) !! command) as [promise|] eqn:Hl.
  - destruct (settled (exec sys) !! promise) as [s|] eqn:Hs.
    + destruct (H5 _ _ Hl) as [[Hnone _] | [ex Hex]]; [congruence|].
      assert (s = Rejected ex) as -> by congruence.
      match goal with |- well_formed (Git.resume _ ?sys0 ?w _) =>
        destruct (resume_facts sys0 w (Rejected ex)) as (Hw & Hsp & Hse & _ & Hp);
        apply (well_formed_same_store sys); [|exact Hw|exact Hwf]
      end.
      destruct (exec (Git.resume _ _ _ _)); simpl in *. subst.
      now destruct (exec sys).
    + constructor; simpl; try assumption.
      * intros w [Hin | ->%list_elem_of_singleton]%elem_of_app; [auto|]. simpl. auto.
      * intros k p Hk. destruct (H5 _ _ Hk) as [[Hn (w & Hin & Hc & Hp)] | Hrej];
          [left | right; assumption].
        split; [assumption|]. exists w. split; [apply elem_of_app; auto | auto].
  - assert (Hfresh : settled (exec sys) !! length (spawned (exec sys)) = None).
    { destruct (settled (exec sys) !! _) eqn:E; [|reflexivity].
      apply H2 in E. lia. }
    simpl. rewrite Hfresh.
    constructor; simpl; rewrite ?length_app; simpl.
    + intros k p [[-> <-] | [_ Hk]]%lookup_insert_Some; [lia|]. apply H1 in Hk. lia.
    + intros p r Hp. apply H2 in Hp. lia.
    + intros k1 k2 p [[<- <-] | [Hn1 Hk1]]%lookup_insert_Some
                     [[<- Hp] | [Hn2 Hk2]]%lookup_insert_Some; try reflexivity.
      * apply H1 in Hk2. lia.
      * apply H1 in Hk1. lia.
      * eauto.
    + intros w [Hin | ->%list_elem_of_singleton]%elem_of_app; simpl.
      * destruct (H4 w Hin) as [Hk Hs]. split; [|assumption].
        rewrite lookup_insert_ne; [assumption|].
        intros Heq. rewrite <- Heq in Hk. congruence.
      * split; [apply lookup_insert_eq | assumption].
    + intros k p [[<- <-] | [Hn Hk]]%lookup_insert_Some.
      * left. split; [assumption|]. eexists. split; [apply elem_of_app; right;
          apply list_elem_of_singleton; reflexivity | simpl; auto].
      * destruct (H5 _ _ Hk) as [[Hs (w & Hin & Hc & Hp)] | Hrej];
          [left | right; assumption].
        split; [assumption|]. exists w. split; [apply elem_of_app; auto | auto].
Qed.

Lemma settle_well_formed (sys : System) (p : nat) (s : Outcome string) :
  well_formed sys -> well_formed (estep sys (Settle p s)).
Proof.
  intros Hwf. pose proof Hwf as [H1 H2 H3 H4 H5].
  unfold Git.step.
  destruct (bool_decide (p < length (spawned (exec sys)))
            && bool_decide (settled (exec sys) !! p = None)) eqn:Hv; [|assumption].
  apply andb_true_iff in Hv as [Hlt Hnone].
  apply bool_decide_eq_true in Hlt. apply bool_decide_eq_true in Hnone.
  set (woken := filter (fun w => w_promise w = p) (waiters sys)).
  match goal with |- well_formed (fold_left _ _ ?sys0) => set (sys' := sys0) end.
  destruct (resume_all_facts woken s sys') as (Hw & Hsp & Hse & _ & Hp).
  set (F := fold_left (fun acc w => eresume acc w s) woken sys') in *.
  simpl in Hw, Hsp, Hse.
  assert (Hwoken : forall w, w ∈ woken <-> w ∈ waiters sys /\ w_promise w = p).
  { intros w. unfold woken. rewrite list_elem_of_filter. tauto. }
  assert (Hcmd : forall k, k ∈ w_command <$> woken ->
                           pendingCommands (exec sys) !! k = Some p).
  { intros k (w & -> & Hin)%list_elem_of_fmap. apply Hwoken in Hin as [Hin <-].
    now apply H4. }
  assert (Hfrom : forall k q, pendingCommands (exec F) !! k = Some q ->
                    pendingCommands (exec sys) !! k = Some q /\
                    (pendingCommands (exec sys) !! k = Some p ->
                     exists ex, s = Rejected ex)).
  { intros k q Hk. rewrite Hp in Hk. destruct s as [v|ex].
    - case_bool_decide as Hin; [discriminate|]. split; [exact Hk|].
      intros Hkp. exfalso.
      destruct (H5 _ _ Hkp) as [[_ (w & Hwin & Hc & Hq)] | [ex Hex]]; [|congruence].
      apply Hin. apply list_elem_of_fmap. exists w. split; [auto|].
      apply Hwoken. auto.
    - split; [exact Hk | eauto]. }
  assert (Hto : forall k q, pendingCommands (exec sys) !! k = Some q -> q <> p ->
                  pendingCommands (exec F) !! k = Some q).
  { intros k q Hk Hne. rewrite Hp. destruct s as [v|ex]; [|exact Hk].
    rewrite bool_decide_eq_false_2; [exact Hk|].
    intros Hin. apply Hcmd in Hin. congruence. }
  constructor.
  - intros k q Hk. rewrite Hsp. apply Hfrom in Hk as [Hk _]. eauto.
  - intros q r. rewrite Hse, Hsp.
    intros [[<- _] | [_ Hq]]%lookup_insert_Some; eauto.
  - intros k1 k2 q Hk1 Hk2. apply Hfrom in Hk1 as [Hk1 _].
    apply Hfrom in Hk2 as [Hk2 _]. eauto.
  - intros w. rewrite Hw. intros [Hne Hin]%list_elem_of_filter.
    destruct (H4 w Hin) as [Hk Hs]. split; [now apply Hto|].
    rewrite Hse. now rewrite lookup_insert_ne by auto.
  - intros k q Hk. rewrite Hse, Hw.
    destruct (Hfrom _ _ Hk) as [Hk0 Hrej].
    destruct (decide (q = p)) as [->|Hne].
    + right. destruct (Hrej Hk0) as [ex ->]. exists ex. apply lookup_insert_eq.
    + rewrite lookup_insert_ne by auto.
      destruct (H5 _ _ Hk0) as [[Hs (w & Hin & Hc & Hq)] | Hex]; [left | right; exact Hex].
      split; [exact Hs|]. exists w. split; [|auto].
      apply list_elem_of_filter. split; [congruence | exact Hin].
Qed.

Lemma step_well_formed (sys : System) (ev : Event) :
  well_formed sys -> well_formed (estep sys ev).
Proof.
  destruct ev; [apply call_well_formed | apply settle_well_formed].
Qed.

Lemma run_well_formed (evs : list Event) (sys : System) :
  well_formed sys -> well_formed (erun evs sys).
Proof.
  revert sys; induction evs as [|ev evs IH]; intros sys H; simpl; [assumption|].
  apply IH. now apply step_well_formed.
Qed.

(** X1: The store of the executor is well formed after any events: calls and
    settlements in any order, failures included. *)
Theorem store_well_formed (evs : list Event) : well_formed (erun evs sys_init).
Proof. apply run_well_formed, sys_init_well_formed. Qed.

(** X2: Once every spawned process has settled, no caller is left waiting,
    and whatever is still in the map is a command that failed. *)
Theorem quiescent_store (evs : list Event) :
  all_settled (erun evs sys_init) ->
  waiters (erun evs sys_init) = [] /\
  forall k p, pendingCommands (exec (erun evs sys_init)) !! k = Some p ->
              exists ex, settled (exec (erun evs sys_init)) !! p = Some (Rejected ex).
Proof.
  intros Hall. destruct (store_well_formed evs) as [H1 H2 H3 H4 H5]. split.
  - apply elem_of_nil_inv. intros w Hin. destruct (H4 w Hin) as [Hk Hs].
    apply H1 in Hk. now apply Hall in Hk.
  - intros k p Hk. destruct (H5 _ _ Hk) as [[Hs _] | Hex]; [|exact Hex].
    apply H1 in Hk. now apply Hall in Hk.
Qed.

Lemma step_settled_from (sys : System) (ev : Event) (p : nat) (r : Outcome string) :
  settled (exec (estep sys ev)) !! p = Some r ->
  settled (exec sys) !! p = Some r \/ ev = Settle p r.
Proof.
  destruct ev as [caller options args | q s]; unfold Git.step.
  - unfold gitCommandCore_begin.
    destruct (pendingCommands (exec sys) !! _) as [promise|]; simpl.
    + destruct (settled (exec sys) !! promise) as [s|]; simpl; [|auto].
      match goal with |- context [Git.resume _ ?sys0 ?w ?s0] =>
        destruct (resume_facts sys0 w s0) as (_ & _ & -> & _) end. auto.
    + destruct (settled (exec sys) !! length (spawned (exec sys))) as [s|]; simpl; [|auto].
      match goal with |- context [Git.resume _ ?sys0 ?w ?s0] =>
        destruct (resume_facts sys0 w s0) as (_ & _ & -> & _) end. auto.
  - destruct (_ && _); [|auto].
    match goal with |- context [fold_left _ ?l ?sys0] =>
      destruct (resume_all_facts l s sys0) as (_ & _ & -> & _) end.
    simpl. intros [[<- <-] | [_ Hq]]%lookup_insert_Some; auto.
Qed.

Lemma run_settled_from (evs : list Event) (sys : System) (p : nat) (r : Outcome string) :
  settled (exec (erun evs sys)) !! p = Some r ->
  settled (exec sys) !! p = Some r \/ Settle p r ∈ evs.
Proof.
  revert sys; induction evs as [|ev evs IH]; intros sys; simpl; [auto|].
  intros H. destruct (IH _ H) as [H' | Hin].
  - destruct (step_settled_from _ _ _ _ H') as [? | ->]; [auto|].
    right. apply elem_of_cons. auto.
  - right. apply elem_of_cons. auto.
Qed.

(** X3: When no process fails, the map holds exactly running commands: every
    entry names a promise that has not settled and has a caller waiting on
    it; hence the map is empty once every process has settled. *)
Theorem running_commands_only (evs : list Event) :
  no_failure evs ->
  (forall k p, pendingCommands (exec (erun evs sys_init)) !! k = Some p ->
     settled (exec (erun evs sys_init)) !! p = None /\
     exists w, w ∈ waiters (erun evs sys_init) /\ w_command w = k /\ w_promise w = p) /\
  (all_settled (erun evs sys_init) -> pendingCommands (exec (erun evs sys_init)) = ∅).
Proof.
  intros Hno.
  assert (Hrun : forall k p, pendingCommands (exec (erun evs sys_init)) !! k = Some p ->
     settled (exec (erun evs sys_init)) !! p = None /\
     exists w, w ∈ waiters (erun evs sys_init) /\ w_command w = k /\ w_promise w = p).
  { intros k p Hk. destruct (store_well_formed evs) as [_ _ _ _ H5].
    destruct (H5 _ _ Hk) as [Hleft | [ex Hex]]; [exact Hleft|].
    apply run_settled_from in Hex as [Hinit | Hin].
    - simpl in Hinit. now rewrite lookup_empty in Hinit.
    - now apply Hno in Hin. }
  split; [exact Hrun|].
  intros Hall. apply map_empty. intros k.
  destruct (pendingCommands (exec (erun evs sys_init)) !! k) as [p|] eqn:Hk; [|reflexivity].
  destruct (Hrun _ _ Hk) as [Hs _].
  destruct (store_well_formed evs) as [H1 _ _ _ _]. apply H1 in Hk.
  now apply Hall in Hk.
Qed.

(** X5: Every process is spawned with the two safety flags first, the
    given git path, utf8 or binary output, and the two credential-manager
    variables set, whatever environment and encoding the caller passed. *)
Theorem spawns_are_guarded (evs : list Event) (sp : Spawn) :
  sp ∈ spawned (exec (erun evs sys_init)) ->
  take 4 (spawn_args sp) = ["-c"; "core.quotepath=false"; "-c"; "color.ui=false"] /\
  spawn_path sp = git_path /\
  (spawn_encoding sp = "utf8" \/ spawn_encoding sp = "binary") /\
  spawn_env sp !! "GCM_INTERACTIVE" = Some "NEVER" /\
  spawn_env sp !! "GCM_PRESERVE_CREDS" = Some "TRUE".
Proof.
  assert (Hgen : forall evs sys,
    sp ∈ spawned (exec (erun evs sys)) ->
    sp ∈ spawned (exec sys) \/
    (take 4 (spawn_args sp) = ["-c"; "core.quotepath=false"; "-c"; "color.ui=false"] /\
     spawn_path sp = git_path /\
     (spawn_encoding sp = "utf8" \/ spawn_encoding sp = "binary") /\
     spawn_env sp !! "GCM_INTERACTIVE" = Some "NEVER" /\
     spawn_env sp !! "GCM_PRESERVE_CREDS" = Some "TRUE")).
  { clear evs. intros evs. induction evs as [|ev evs IH]; intros sys; simpl; [auto|].
    intros H. destruct (IH _ H) as [Hin | Hok]; [|auto]. clear IH H.
    destruct ev as [caller options args | q s]; unfold Git.step in Hin.
    - unfold gitCommandCore_begin in Hin.
      destruct (pendingCommands (exec sys) !! _) as [promise|]; simpl in Hin.
      + destruct (settled (exec sys) !! promise) as [s|]; simpl in Hin; [|auto].
        match type of Hin with context [Git.resume _ ?sys0 ?w ?s0] =>
          destruct (resume_facts sys0 w s0) as (_ & Hsp & _) end.
        rewrite Hsp in Hin. auto.
      + assert (Hin' : sp ∈ spawned (exec sys) ++
                  [{| spawn_path := git_path;
                      spawn_args := with_safety_flags args;
                      spawn_cwd := cwd options;
                      spawn_env :=
                        <["GCM_PRESERVE_CREDS" := "TRUE"]>
                          (<["GCM_INTERACTIVE" := "NEVER"]>
                             (match env options with Some e => e | None => process_env end));
                      spawn_encoding :=
                        if String.eqb (opts_encoding options) "utf8" then "utf8" else "binary";
                      spawn_stdin := stdin options |}]).
        { destruct (settled (exec sys) !! length (spawned (exec sys))) as [s|];
            simpl in Hin; [|exact Hin].
          match type of Hin with context [Git.resume _ ?sys0 ?w ?s0] =>
            destruct (resume_facts sys0 w s0) as (_ & Hsp & _) end.
          rewrite Hsp in Hin. exact Hin. }
        apply elem_of_app in Hin' as [? | ->%list_elem_of_singleton]; [auto|].
        right. simpl. repeat split.
        * destruct (String.eqb _ _); auto.
        * rewrite lookup_insert_ne by discriminate. apply lookup_insert_eq.
        * apply lookup_insert_eq.
    - destruct (_ && _); [|auto].
      match type of Hin with context [fold_left _ ?l ?sys0] =>
        destruct (resume_all_facts l s sys0) as (_ & Hsp & _) end.
      rewrite Hsp in Hin. auto. }
  intros H. destruct (Hgen _ _ H) as [Hin | Hok]; [|exact Hok].
  simpl in Hin. now apply elem_of_nil in Hin.
Qed.

End ExecutorStore.

Lemma quiescent_store_witness :
  let options := {| cwd := Some "/repo"; env := None; encoding := None;
                    stdin := None; willHandleErrors := true |} in
  waiters
    (Git.run "git" ∅ (fun s _ => s)
       [Call 1 options ["status"]; Settle 0 (Rejected {| message := "boom" |});
        Call 2 options ["status"]]
       sys_init) = [].
Proof.
  intros options.
  apply (quiescent_store "git" ∅ (fun s _ => s)
           [Call 1 options ["status"]; Settle 0 (Rejected {| message := "boom" |});
            Call 2 options ["status"]]).
  intros p Hp. vm_compute in Hp. assert (p = 0%nat) as -> by lia.
  vm_compute. discriminate.
Defined.

Lemma running_commands_only_witness :
  let options := {| cwd := Some "/repo"; env := None; encoding := None;
                    stdin := None; willHandleErrors := false |} in
  pendingCommands
    (exec (Git.run "git" ∅ (fun s _ => s)
             [Call 1 options ["status"]; Call 2 options ["status"];
              Settle 0 (Resolved "M a.ts")]
             sys_init)) = ∅.
Proof.
  intros options.
  assert (Hno : ExecutorInvariant.no_failure
            [Call 1 options ["status"]; Call 2 options ["status"];
             Settle 0 (Resolved "M a.ts")]).
  { intros p ex Hin.
    repeat (apply elem_of_cons in Hin as [Heq | Hin]; [discriminate|]).
    now apply elem_of_nil in Hin. }
  apply (proj2 (running_commands_only "git" ∅ (fun s _ => s) _ Hno)).
  intros p Hp. vm_compute in Hp. assert (p = 0%nat) as -> by lia.
  vm_compute. discriminate.
Defined.

Lemma spawns_are_guarded_witness :
  let options := {| cwd := Some "/repo";
                    env := Some {["GCM_INTERACTIVE" := "ALWAYS"]};
                    encoding := Some "latin1";
                    stdin := None; willHandleErrors := false |} in
  match spawned (exec (Git.run "git" ∅ (fun s _ => s)
                         [Call 1 options ["status"]] sys_init)) with
  | [sp] =>
      spawn_env sp !! "GCM_INTERACTIVE" = Some "NEVER" /\ spawn_encoding sp = "binary"
  | _ => False
  end.
Proof.
  intros options.
  destruct (spawned (exec (Git.run "git" ∅ (fun s _ => s)
                             [Call 1 options ["status"]] sys_init)))
    as [|sp [|sp' l]] eqn:E; [discriminate E | | discriminate E].
  assert (Hin : sp ∈ spawned (exec (Git.run "git" ∅ (fun s _ => s)
                                      [Call 1 options ["status"]] sys_init)))
    by (rewrite E; apply list_elem_of_here).
  destruct (spawns_are_guarded "git" ∅ (fun s _ => s) _ sp Hin)
    as (_ & _ & _ & Hgcm & _).
  split; [exact Hgcm|]. injection E as <-. reflexivity.
Defined.

(** ** The staged sentinel in the argument vectors *)

Import GitCommands.

Lemma staged_is_truthy (sha : string) :
  isStagedUncommitted sha = true ->
  truthy (Some sha) = true /\ isStagedUncommitted_opt (Some sha) = true.
Proof. intros H. split; [|exact H]. destruct sha; [discriminate H | reflexivity]. Qed.

(** X6: The staged sentinel is never handed to [git log], [git log --shortstat]
    or [git ls-files] as a revision: the arguments are those of the call
    without a revision.  For the log of a file the same holds when merges
    are skipped (or more than two commits are asked for); otherwise the
    arguments are those of the call without a revision with [--no-merges]
    turned into [-m]. *)
Theorem staged_sentinel_is_no_revision (sha repoPath fileName : string)
    (maxCount : option nat) (reverse : bool) (o : LogFileOptions) :
  isStagedUncommitted sha = true ->
  log repoPath (Some sha) maxCount reverse = log repoPath None maxCount reverse /\
  log_shortstat repoPath (Some sha) = log_shortstat repoPath None /\
  ls_files repoPath fileName (Some sha) = ls_files repoPath fileName None /\
  inv_options (log_file repoPath fileName (Some sha) o)
  = inv_options (log_file repoPath fileName None o) /\
  inv_args (log_file repoPath fileName (Some sha) o)
  = if lf_skipMerges o || more_than_two (lf_maxCount o)
    then inv_args (log_file repoPath fileName None o)
    else <[(if truthy_num (lf_maxCount o) && negb (lf_reverse o) then 7 else 6)%nat := "-m"]>
           (inv_args (log_file repoPath fileName None o)).
Proof.
  intros Hst. destruct (staged_is_truthy sha Hst) as [Ht Hs].
  unfold log, log_shortstat, ls_files, log_file. rewrite Ht, Hs.
  destruct (splitPath fileName (Some repoPath) true) as [file root].
  repeat split.
  destruct o as [mc rev sl el skip]; simpl.
  destruct skip; simpl; [reflexivity|].
  destruct (more_than_two mc) eqn:Hm; simpl; [reflexivity|].
  destruct (truthy_num mc && negb rev); simpl;
    destruct sl, el; reflexivity.
Qed.

Lemma staged_sentinel_is_no_revision_witness :
  inv_args (log_file "/repo" "/repo/src/a.ts" (Some stagedUncommittedSha)
              {| lf_maxCount := Some 2%nat; lf_reverse := false; lf_startLine := None;
                 lf_endLine := None; lf_skipMerges := false |})
  = defaultLogParams ++ ["--follow"; "-n2"; "-m"; "--"; "src/a.ts"].
Proof.
  rewrite (proj2 (proj2 (proj2 (proj2 (staged_sentinel_is_no_revision
             stagedUncommittedSha "/repo" "/repo/src/a.ts" None false
             {| lf_maxCount := Some 2%nat; lf_reverse := false; lf_startLine := None;
                lf_endLine := None; lf_skipMerges := false |} eq_refl))))).
  vm_compute. reflexivity.
Defined.

(** X7: In [git diff] the staged sentinel stands for [--staged]: on either
    side, the call with the sentinel is the call with the text [--staged]
    in its place. *)
Theorem diff_staged_sentinel (repoPath fileName : string) (sha1 sha2 : string)
    (other : option string) (options_encoding : option string) :
  (isStagedUncommitted sha1 = true ->
   diff repoPath fileName (Some sha1) other options_encoding
   = diff repoPath fileName (Some "--staged") other options_encoding) /\
  (isStagedUncommitted sha2 = true ->
   diff repoPath fileName other (Some sha2) options_encoding
   = diff repoPath fileName other (Some "--staged") options_encoding).
Proof.
  split; intros Hst; destruct (staged_is_truthy _ Hst) as [Ht Hs];
    unfold diff; rewrite Ht, Hs; reflexivity.
Qed.

Lemma diff_staged_sentinel_witness :
  inv_args (diff "/repo" "src/a.ts" (Some stagedUncommittedSha) None None)
  = ["diff"; "--diff-filter=M"; "-M"; "--no-ext-diff"; "--staged"; "--"; "src/a.ts"].
Proof.
  rewrite (proj1 (diff_staged_sentinel "/repo" "src/a.ts" stagedUncommittedSha
                    stagedUncommittedSha None None) eq_refl).
  reflexivity.
Defined.

(** X8: Blaming the staged contents: the sentinel is not passed as a
    revision; [--contents -] is, and what is piped in is the output of
    [Git.show] on [":"], which runs [show :./file] in the same directory
    and on the same relative file as the blame. *)
Theorem blame_staged_contents (repoPath : option string) (fileName sha : string)
    (ignoreWhitespace : bool) (startLine endLine : option nat) :
  isStagedUncommitted sha = true ->
  let b := blame repoPath fileName (Some sha) ignoreWhitespace startLine endLine in
  let b0 := blame repoPath fileName None ignoreWhitespace startLine endLine in
  let file := fst (splitPath fileName repoPath true) in
  blame_stdin b = Some (repoPath, fileName, ":") /\
  blame_root b = snd (splitPath fileName repoPath true) /\
  (exists params,
     blame_args b0 = params ++ ["--"; file] /\
     blame_args b = params ++ ["--contents"; "-"; "--"; file]) /\
  exists opts,
    show_begin repoPath fileName ":" None = inr (opts, ["show"; ":./" +:+ file]) /\
    cwd opts = blame_root b.
Proof.
  intros Hst b b0 file. destruct (staged_is_truthy sha Hst) as [Ht Hs].
  subst b b0 file. unfold blame, show_begin. rewrite Ht, Hs.
  destruct (splitPath fileName repoPath true) as [file root].
  cbv beta iota zeta.
  split; [reflexivity|]. split; [reflexivity|]. split.
  - eexists. split; [reflexivity|]. simpl. now rewrite <- app_assoc.
  - change (isStagedUncommitted ":") with false. cbv iota.
    rewrite colon_is_not_uncommitted. eexists. split; reflexivity.
Qed.

Lemma blame_staged_contents_witness :
  blame_stdin (blame (Some "/repo") "/repo/src/a.ts" (Some stagedUncommittedSha)
                 false None None)
  = Some (Some "/repo", "/repo/src/a.ts", ":").
Proof.
  apply (blame_staged_contents (Some "/repo") "/repo/src/a.ts" stagedUncommittedSha
           false None None eq_refl).
Defined.

(** ** Splitting a path that comes without a root *)

Lemma get_append_r (pre s : string) (i : nat) :
  String.get (String.length pre + i) (pre +:+ s) = String.get i s.
Proof. induction pre as [|c pre IH]; simpl; [reflexivity | exact IH]. Qed.

Lemma is_slash_at_append_r (pre s : string) (i : nat) :
  Js.is_slash_at (String.length pre + i) (pre +:+ s) = Js.is_slash_at i s.
Proof. unfold Js.is_slash_at. now rewrite get_append_r. Qed.

Lemma is_slash_at_none (s : string) (i : nat) :
  Js.every (fun c => negb (Ascii.eqb c "/")) s = true -> Js.is_slash_at i s = false.
Proof.
  unfold Js.is_slash_at. revert i; induction s as [|c s IH]; intros i H; simpl in *.
  - reflexivity.
  - apply andb_true_iff in H as [Hc Hs]. destruct i as [|i]; [|now apply IH].
    now apply negb_true_iff in Hc.
Qed.

Lemma substring_to_all (s : string) : Js.substring_to (String.length s) s = s.
Proof. induction s as [|c s IH]; simpl; [reflexivity | now rewrite IH]. Qed.

Lemma basename_loop_skip (path : string) (m k : nat) (ms : bool) (e : nat) :
  (forall j, j < k -> Js.is_slash_at (m + j) path = false) ->
  Path.basename_loop path (m + k) ms (Some e) = Path.basename_loop path m ms (Some e).
Proof.
  induction k as [|k IH]; intros H.
  - now rewrite Nat.add_0_r.
  - rewrite Nat.add_succ_r. simpl. rewrite H by lia. apply IH. intros j Hj. apply H. lia.
Qed.

Lemma dirname_loop_skip (path : string) (m k : nat) (ms : bool) :
  (forall j, 1 <= j <= k -> Js.is_slash_at (m + j) path = false) ->
  Path.dirname_loop path (m + k) ms
  = Path.dirname_loop path m (match k with O => ms | S _ => false end).
Proof.
  revert ms; induction k as [|k IH]; intros ms H.
  - now rewrite Nat.add_0_r.
  - rewrite Nat.add_succ_r. simpl.
    replace (S (m + k)) with (m + S k)%nat by lia. rewrite H by lia.
    rewrite IH by (intros j Hj; apply H; lia). now destruct k.
Qed.

Lemma basename_after_slash (dir base : string) :
  base <> "" -> Js.every (fun c => negb (Ascii.eqb c "/")) base = true ->
  Path.basename (dir +:+ "/" +:+ base) = base.
Proof.
  intros Hne Hbase. unfold Path.basename.
  set (path := dir +:+ "/" +:+ base).
  assert (Hlen : String.length path = (String.length dir + 1 + String.length base)%nat).
  { unfold path. rewrite !append_length. simpl. lia. }
  assert (Hns : forall j, Js.is_slash_at (String.length dir + 1 + j) path = false).
  { intros j. unfold path. rewrite <- Nat.add_assoc, is_slash_at_append_r.
    change ("/" +:+ base) with (String "/" base). unfold Js.is_slash_at. simpl.
    now apply is_slash_at_none. }
  assert (Hsl : Js.is_slash_at (String.length dir) path = true).
  { unfold path. rewrite <- (Nat.add_0_r (String.length dir)), is_slash_at_append_r.
    reflexivity. }
  destruct base as [|c base']; [contradiction|]. simpl in Hlen.
  rewrite Hlen.
  replace (String.length dir + 1 + S (String.length base'))%nat
    with (S (String.length dir + 1 + String.length base')) by lia.
  simpl Path.basename_loop. rewrite Hns.
  rewrite basename_loop_skip by (intros j _; apply Hns).
  replace (String.length dir + 1)%nat with (S (String.length dir)) by lia.
  simpl Path.basename_loop. rewrite Hsl. simpl negb. cbv iota.
  unfold Js.slice.
  replace (String.length dir + 1)%nat with (String.length (dir +:+ "/"))
    by (rewrite append_length; reflexivity).
  unfold path. rewrite <- (append_assoc dir "/" (String c base')).
  rewrite substring_from_append.
  replace (_ - _)%nat with (String.length (String c base'))
    by (rewrite append_length; simpl; lia).
  apply substring_to_all.
Qed.

Lemma basename_plain (base : string) :
  base <> "" -> Js.every (fun c => negb (Ascii.eqb c "/")) base = true ->
  Path.basename base = base.
Proof.
  intros Hne Hbase. unfold Path.basename.
  destruct base as [|c base']; [contradiction|].
  set (path := String c base') in *.
  change (String.length path) with (S (String.length base')).
  simpl Path.basename_loop. rewrite (is_slash_at_none path) by assumption.
  rewrite <- (Nat.add_0_l (String.length base')) at 1.
  rewrite basename_loop_skip by (intros j _; now apply is_slash_at_none).
  simpl. unfold Js.slice. simpl Js.substring_from.
  rewrite Nat.sub_0_r, Nat.add_1_r.
  apply (substring_to_all path).
Qed.

Lemma dirname_before_slash (dir base : string) :
  dir <> "" -> dir <> "/" ->
  base <> "" -> Js.every (fun c => negb (Ascii.eqb c "/")) base = true ->
  Path.dirname (dir +:+ "/" +:+ base) = dir.
Proof.
  intros Hd Hroot Hne Hbase. unfold Path.dirname.
  set (path := dir +:+ "/" +:+ base).
  assert (Hlen : String.length path = (String.length dir + 1 + String.length base)%nat).
  { unfold path. rewrite !append_length. simpl. lia. }
  assert (Hns : forall j, 1 <= j -> Js.is_slash_at (String.length dir + j) path = false).
  { intros j Hj. unfold path. rewrite is_slash_at_append_r.
    change ("/" +:+ base) with (String "/" base). unfold Js.is_slash_at.
    destruct j as [|j]; [lia|]. simpl. now apply is_slash_at_none. }
  assert (Hsl : Js.is_slash_at (String.length dir) path = true).
  { unfold path. rewrite <- (Nat.add_0_r (String.length dir)), is_slash_at_append_r.
    reflexivity. }
  rewrite Hlen.
  destruct (Nat.eqb_spec (String.length dir + 1 + String.length base) 0); [lia|].
  replace (String.length dir + 1 + String.length base - 1)%nat
    with (String.length dir + String.length base)%nat by lia.
  rewrite dirname_loop_skip by (intros j Hj; apply Hns; lia).
  destruct base as [|c base']; [contradiction|]. cbv iota.
  destruct dir as [|d dir']; [contradiction|].
  change (String.length (String d dir')) with (S (String.length dir')) in *.
  simpl Path.dirname_loop. rewrite Hsl. simpl negb. cbv iota.
  assert (Hnot : Js.is_slash_at 0 path && (S (String.length dir') =? 1)%nat = false).
  { destruct dir' as [|d' dir'']; [|simpl; apply andb_false_r].
    unfold path, Js.is_slash_at. simpl.
    destruct (Ascii.eqb_spec d "/") as [->|]; [contradiction | reflexivity]. }
  rewrite Hnot. unfold Js.slice. rewrite Nat.sub_0_r. simpl Js.substring_from.
  unfold path. apply (substring_to_append (String d dir')).
Qed.

Lemma dirname_no_directory (base : string) :
  Js.every (fun c => negb (Ascii.eqb c "/")) base = true ->
  Path.dirname base = "." /\ Path.dirname ("/" +:+ base) = "/".
Proof.
  intros Hbase. unfold Path.dirname. split.
  - destruct base as [|c base']; [reflexivity|].
    set (path := String c base') in *.
    change (String.length path) with (S (String.length base')).
    simpl Nat.eqb. cbv iota. rewrite Nat.sub_succ, Nat.sub_0_r.
    rewrite <- (Nat.add_0_l (String.length base')).
    rewrite dirname_loop_skip by (intros j _; now apply is_slash_at_none).
    rewrite (is_slash_at_none path) by assumption.
    now destruct (String.length base').
  - change ("/" +:+ base) with (String "/" base).
    change (String.length (String "/" base)) with (S (String.length base)).
    simpl Nat.eqb. cbv iota. rewrite Nat.sub_succ, Nat.sub_0_r.
    rewrite <- (Nat.add_0_l (String.length base)).
    rewrite dirname_loop_skip.
    + now destruct (String.length base).
    + intros j Hj. destruct j as [|j]; [lia|]. unfold Js.is_slash_at. simpl.
      now apply is_slash_at_none.
Qed.

(** X9: On a POSIX host (where [path] is [path.posix]), with no root
    (absent or empty), [splitPath] cuts the file name at its last slash:
    the directory part is the root and the last component is the file,
    both with forward slashes.  A name with no slash gets the root ["."],
    and a name directly under the top gets ["/"]. *)
Theorem splitPath_without_root (dir base : string) (root : option string) :
  root = None \/ root = Some "" ->
  base <> "" ->
  Js.every (fun c => negb (Ascii.eqb c "/")) base = true ->
  (dir <> "" -> dir <> "/" ->
   splitPath (dir +:+ "/" +:+ base) root true
   = (Js.replace_backslashes base, Some (Js.replace_backslashes dir))) /\
  splitPath base root true = (Js.replace_backslashes base, Some ".") /\
  splitPath ("/" +:+ base) root true = (Js.replace_backslashes base, Some "/").
Proof.
  intros Hroot Hne Hbase.
  destruct (dirname_no_directory base Hbase) as [Hd1 Hd2].
  assert (Hsplit : forall fileName,
            splitPath fileName root true
            = (Js.replace_backslashes (Path.basename fileName),
               Some (Js.replace_backslashes (Path.dirname fileName))))
    by (intros fileName; destruct Hroot as [-> | ->]; reflexivity).
  rewrite !Hsplit. split; [|split].
  - intros Hd Hnr. now rewrite basename_after_slash, dirname_before_slash.
  - now rewrite basename_plain, Hd1.
  - rewrite Hd2. change ("/" +:+ base) with ("" +:+ "/" +:+ base).
    now rewrite basename_after_slash.
Qed.

Lemma splitPath_without_root_witness :
  splitPath "/home/me/project/src/a.ts" None true
  = ("a.ts", Some "/home/me/project/src").
Proof.
  apply (proj1 (splitPath_without_root "/home/me/project/src" "a.ts" None
                  (or_introl eq_refl) ltac:(discriminate) eq_refl));
    discriminate.
Defined.

(** ** What [splitPath] returns is normalized *)

Lemma replace_backslashes_clean (s : string) :
  Js.every (fun c => negb (Ascii.eqb c "\")) (Js.replace_backslashes s) = true.
Proof.
  induction s as [|c s IH]; simpl; [reflexivity|]. rewrite IH, andb_true_r.
  destruct (Ascii.eqb_spec c "\"); [reflexivity|]. now apply negb_true_iff, Ascii.eqb_neq.
Qed.

Lemma every_substring_from (p : ascii -> bool) (n : nat) (s : string) :
  Js.every p s = true -> Js.every p (Js.substring_from n s) = true.
Proof.
  revert s; induction n as [|n IH]; intros [|c s] H; simpl in *; try assumption;
    try reflexivity.
  apply andb_true_iff in H as [_ H]. now apply IH.
Qed.

Lemma every_substring_to (p : ascii -> bool) (n : nat) (s : string) :
  Js.every p s = true -> Js.every p (Js.substring_to n s) = true.
Proof.
  revert s; induction n as [|n IH]; intros [|c s] H; simpl in *; try reflexivity.
  apply andb_true_iff in H as [Hc H]. now rewrite Hc, IH.
Qed.

(** X10: Whatever it is given, [splitPath] returns a file and a root without
    backslashes; the root is undefined only when none was given and
    [extract] is off. *)
Theorem splitPath_is_normalized (fileName : string) (repoPath : option string)
    (extract : bool) :
  Js.every (fun c => negb (Ascii.eqb c "\")) (fst (splitPath fileName repoPath extract))
  = true /\
  match snd (splitPath fileName repoPath extract) with
  | Some root => Js.every (fun c => negb (Ascii.eqb c "\")) root = true
  | None => repoPath = None /\ extract = false
  end.
Proof.
  unfold splitPath. destruct repoPath as [[|c rp]|]; simpl.
  - destruct extract; simpl; split; try apply replace_backslashes_clean; reflexivity.
  - split; [|apply (replace_backslashes_clean (String c rp))].
    destruct (Js.startsWith _ _).
    + apply every_substring_from, replace_backslashes_clean.
    + apply replace_backslashes_clean.
  - destruct extract; simpl; split; try apply replace_backslashes_clean; auto.
Qed.

(** ** Short forms are not ids *)

Lemma substring_to_length_le (n : nat) (s : string) :
  String.length (Js.substring_to n s) <= n.
Proof.
  revert s; induction n as [|n IH]; intros [|c s]; simpl; try lia.
  specialize (IH s). lia.
Qed.

Lemma substring_to_prefix (n : nat) (h x : string) :
  n <= String.length h -> Js.substring_to n (h +:+ x) = Js.substring_to n h.
Proof.
  revert h; induction n as [|n IH]; intros [|c h] Hn; simpl in *;
    try reflexivity; try lia.
  rewrite IH by lia. reflexivity.
Qed.

Lemma forty_hex_prefix (s h x : string) :
  s = h +:+ x -> String.length h = 40%nat -> Js.every is_hex h = true ->
  40 <= String.length s /\ Js.every is_hex (Js.substring_to 7 s) = true.
Proof.
  intros -> Hl Hh. split; [rewrite append_length; lia|].
  rewrite substring_to_prefix by lia. now apply every_substring_to.
Qed.

Lemma classified_prefix (s : string) :
  isSha s = true \/ isUncommitted s = true \/ isStagedUncommitted s = true ->
  40 <= String.length s /\ Js.every is_hex (Js.substring_to 7 s) = true.
Proof.
  assert (Hz : forall z, Js.every is_zero z = true -> Js.every is_hex z = true).
  { intros z. apply every_impl. intros c Hc. apply Ascii.eqb_eq in Hc as ->. reflexivity. }
  intros [H | [H | H]].
  - apply isSha_spec in H as (h & g & d & Hs & Hl & Hh & _). eauto using forty_hex_prefix.
  - apply isUncommitted_spec in H as (z & g & k & Hs & Hl & Hh & _).
    eauto using forty_hex_prefix.
  - apply isStagedUncommitted_spec in H as (z & g & Hs & Hl & Hh & _).
    eauto using forty_hex_prefix.
Qed.

Lemma indexOf_found (c : ascii) (s : string) (i : nat) :
  Js.indexOf c s = Z.of_nat i ->
  exists pre suf, s = pre +:+ String c suf /\ String.length pre = i.
Proof.
  revert i; induction s as [|d s IH]; intros i; simpl; [lia|].
  destruct (Ascii.eqb_spec d c) as [->|Hne].
  - intros Hi. exists "", s. split; [reflexivity | simpl; lia].
  - destruct (Z.ltb_spec (Js.indexOf c s) 0) as [Hneg|Hpos]; [lia|].
    intros Hi. destruct i as [|i]; [lia|].
    destruct (IH i) as (pre & suf & -> & Hl); [lia|].
    exists (String d pre), suf. split; [reflexivity | simpl; lia].
Qed.

Lemma shortenSha_shape (id : string) :
  String.length (shortenSha id) < 40 \/
  Js.every is_hex (Js.substring_to 7 (shortenSha id)) = false.
Proof.
  unfold shortenSha.
  destruct (isStagedUncommitted id); [left; simpl; lia|].
  destruct (isUncommitted id); [left; simpl; lia|].
  destruct (Z.gtb_spec (Js.indexOf "^" id) 6) as [Hgt|Hle].
  - right.
    destruct (indexOf_found "^" id (Z.to_nat (Js.indexOf "^" id))) as (pre & suf & Hid & Hl);
      [lia|].
    rewrite <- Hl. rewrite Hid. rewrite substring_from_append.
    rewrite (substring_to_prefix 6 pre) by lia.
    assert (H6 : String.length (Js.substring_to 6 pre) = 6%nat).
    { assert (Hp : 6 <= String.length pre) by lia. clear -Hp.
      do 6 (destruct pre as [|? pre]; [simpl in Hp; lia|]). reflexivity. }
    set (a := Js.substring_to 6 pre) in *.
    change (String "^" suf) with ("^" +:+ suf).
    rewrite <- append_assoc.
    rewrite (substring_to_prefix 7 (a +:+ "^") suf)
      by (rewrite append_length; simpl; lia).
    replace 7%nat with (String.length (a +:+ "^")) by (rewrite append_length; simpl; lia).
    rewrite substring_to_all, every_append. simpl. apply andb_false_r.
  - left. pose proof (substring_to_length_le 8 id). lia.
Qed.

(** X11: A short form is display only: whatever the id, [shortenSha] never
    returns a text that [isSha], [isUncommitted] or [isStagedUncommitted]
    accepts. *)
Theorem short_form_is_no_id (id : string) :
  isSha (shortenSha id) = false /\
  isUncommitted (shortenSha id) = false /\
  isStagedUncommitted (shortenSha id) = false.
Proof.
  assert (H : forall b, b = isSha (shortenSha id) \/ b = isUncommitted (shortenSha id)
                        \/ b = isStagedUncommitted (shortenSha id) -> b = false).
  { intros [|] Hb; [|reflexivity]. exfalso.
    destruct (classified_prefix (shortenSha id)) as [Hl Hh].
    { destruct Hb as [<- | [<- | <-]]; auto. }
    destruct (shortenSha_shape id) as [Hs | Hs]; [lia | congruence]. }
  repeat split; apply H; auto.
Qed.

(** ** [Git.show] on a failed invocation *)

Lemma path_pattern_with_space (msg : string) :
  test (unanchored (Cat (lit "Path '") (Cat dots (lit "' exists on disk, but not in ")))) msg
  = true ->
  test (unanchored (Cat (lit "Path '") (Cat dots (lit "' exists on disk, but not in")))) msg
  = true.
Proof.
  rewrite !test_unanchored. intros (pre & mid & post & -> & Hm).
  apply matches_cat in Hm as (m1 & m2 & -> & H1 & H2).
  apply matches_cat in H2 as (x & m3 & -> & Hx & H3).
  apply matches_lit in H1 as ->. apply matches_lit in H3 as ->.
  exists pre, ("Path '" +:+ x +:+ "' exists on disk, but not in"), (" " +:+ post).
  split.
  - change "' exists on disk, but not in "
      with ("' exists on disk, but not in" +:+ " ").
    now rewrite !append_assoc.
  - constructor; [now apply matches_lit|]. constructor; [assumption | now apply matches_lit].
Qed.

(** X12: [Git.show] asks for the errors of its invocation and sorts them
    itself: if the message matches any expected warning the call still
    resolves (to [undefined] for a path missing at the revision, to the
    empty string otherwise), and if none matches it rejects with the
    original error. *)
Theorem show_sorts_failures (repoPath : option string) (fileName branchOrSha : string)
    (options_encoding : option string) (opts : GitCommandOptions) (args : list string)
    (ex : Error) :
  show_begin repoPath fileName branchOrSha options_encoding = inr (opts, args) ->
  let r := show_end (gitCommand_end opts (Rejected ex)) in
  ((exists w, In w GitWarnings /\ test w (toString ex) = true) ->
   r = Resolved None \/ r = Resolved (Some "")) /\
  ((forall w, In w GitWarnings -> test w (toString ex) = false) -> r = Rejected ex).
Proof.
  intros Hb r.
  assert (Hw : willHandleErrors opts = true).
  { unfold show_begin in Hb. destruct (splitPath _ _ _).
    destruct (isUncommitted _); [discriminate|]. now injection Hb as <- _. }
  subst r. unfold gitCommand_end. rewrite Hw. unfold show_end. split.
  - intros (w & Hin & Ht). destruct (_ || _); [now left|].
    rewrite (handler_resolves ex w Hin Ht). now right.
  - intros Hnone.
    rewrite (Hnone (unanchored (Cat (lit "Path '") (Cat dots (lit "' does not exist in")))))
      by (simpl; tauto).
    destruct (test (unanchored (Cat (lit "Path '")
                (Cat dots (lit "' exists on disk, but not in ")))) (toString ex)) eqn:Hsp.
    + apply path_pattern_with_space in Hsp.
      rewrite (Hnone _) in Hsp by (simpl; tauto). discriminate.
    + simpl. now rewrite handler_rejects.
Qed.

Lemma show_sorts_failures_witness :
  show_end
    (gitCommand_end
       {| cwd := Some "/repo"; env := None; encoding := Some "utf8"; stdin := None;
          willHandleErrors := true |}
       (Rejected {| message := "spawn git ENOENT" |}))
  = Rejected {| message := "spawn git ENOENT" |}.
Proof.
  apply (proj2 (show_sorts_failures (Some "/repo") "/repo/src/a.ts" "HEAD" None _ _
                  {| message := "spawn git ENOENT" |} eq_refl)).
  intros w Hin. simpl in Hin.
  repeat (destruct Hin as [<- | Hin]; [vm_compute; reflexivity|]). destruct Hin.
Defined.

(** ** The tracker's event log *)

Section TrackerLogFacts.

Import TrackerLog.

Variable getCacheEntryKey : string -> string.
Variable isTextEditor : TextEditor -> bool.
Variable documentEquals : string -> string -> bool.

Abbreviation lstep := (Tracker.step getCacheEntryKey isTextEditor documentEquals).
Abbreviation lrun := (Tracker.run getCacheEntryKey isTextEditor documentEquals).

Lemma updateBlameability_log (t : Tracker) (reason : BlameabilityChangeReason)
    (arg : option bool) (force : bool) :
  (force = true /\ reason = EditorChanged) \/ (force = false /\ published_is_stored t) ->
  no_redundant (fired t) ->
  no_redundant (fired (updateBlameability t reason arg force)).
Proof.
  intros Hpre Hlog. unfold updateBlameability.
  destruct (negb force && bool_decide _) eqn:Hquiet; [assumption|].
  simpl. destruct (fired t) as [|prev rest] eqn:Hf; [exact I|].
  split; [|assumption]. simpl.
  destruct Hpre as [[-> ->] | [-> Hps]]; [now left|]. right.
  simpl in Hquiet. apply bool_decide_eq_false in Hquiet.
  unfold published_is_stored, published in Hps. rewrite Hf in Hps.
  intros Heq. apply Hquiet. now rewrite <- Hps.
Qed.

Lemma updateContext_end_log (t : Tracker) (reason : BlameabilityChangeReason)
    (force b : bool) :
  (force = true /\ reason = EditorChanged) \/ (force = false /\ published_is_stored t) ->
  no_redundant (fired t) ->
  no_redundant (fired (updateContext_end t reason force b)).
Proof.
  intros Hpre Hlog. unfold updateContext_end.
  apply updateBlameability_log; case_bool_decide; auto.
Qed.

Lemma force_cases (reason : BlameabilityChangeReason) (force : bool) (t : Tracker) :
  (force = true -> reason = EditorChanged) -> published_is_stored t ->
  (force = true /\ reason = EditorChanged) \/ (force = false /\ published_is_stored t).
Proof. destruct force; auto. Qed.

Lemma updateContext_log (t : Tracker) (reason : BlameabilityChangeReason)
    (e : option TextEditor) (force : bool) :
  (force = true /\ reason = EditorChanged) \/ (force = false /\ e = editor (context t)) ->
  log_invariant t -> log_invariant (updateContext t reason e force).
Proof.
  intros Hpre (Hc & Hlog & Hk).
  split; [apply updateContext_coherent; [destruct Hpre as [[-> _]|[_ ->]]; auto | exact Hc]|].
  unfold updateContext.
  destruct (force || bool_decide (editor (context t) <> e)) eqn:Hb.
  - assert (Hforce : force = true /\ reason = EditorChanged).
    { destruct Hpre as [? | [-> ->]]; [assumption|].
      rewrite bool_decide_eq_false_2 in Hb by auto. discriminate. }
    destruct Hforce as [-> ->]. destruct e as [e|].
    + split; [exact Hlog|]. simpl. apply Forall_app. split; [exact Hk|].
      constructor; [simpl; intros; congruence | constructor].
    + split.
      * apply updateContext_end_log; [now left | exact Hlog].
      * match goal with |- Forall _ (suspended (updateContext_end ?t1 ?a ?b ?c)) =>
          destruct (updateContext_end_fully_coherent t1 a b c) as [_ ->]; [now left|]
        end. exact Hk.
  - assert (Hforce : force = false) by (destruct force; [discriminate | reflexivity]).
    subst force. destruct (uri (context t)).
    + split; [exact Hlog|]. simpl. apply Forall_app. split; [exact Hk|].
      constructor; [simpl; intros; congruence | constructor].
    + split.
      * apply updateContext_end_log; [right; split; [reflexivity | apply Hc] | exact Hlog].
      * match goal with |- Forall _ (suspended (updateContext_end ?t1 ?a ?b ?c)) =>
          destruct (updateContext_end_fully_coherent t1 a b c) as [_ ->];
            [right; apply Hc|]
        end. exact Hk.
Qed.

Lemma step_log (t : Tracker) (sig : Signal) : log_invariant t -> log_invariant (lstep t sig).
Proof.
  intros Hinv. pose proof Hinv as (Hc & Hlog & Hk).
  destruct sig as [e|e|doc d| |key|i v]; simpl.
  - apply updateContext_log; auto.
  - unfold onActiveTextEditorChanged. case_bool_decide; [assumption|].
    destruct e as [e|]; [destruct (isTextEditor e); simpl; [|assumption]|];
      apply updateContext_log; auto.
  - split; [apply (step_coherent getCacheEntryKey isTextEditor documentEquals t
                     (TextDocumentChanged doc d) Hc)|].
    unfold onTextDocumentChanged. destruct (editor (context t)); [|auto].
    destruct (negb _); [auto|]. destruct (Bool.eqb _ _); [auto|].
    split.
    + apply updateBlameability_log; [right; split; [reflexivity | apply Hc] | exact Hlog].
    + match goal with |- Forall _ (suspended (updateBlameability ?t1 ?a ?b ?c)) =>
        destruct (updateBlameability_recomputes t1 a c) as (_ & _ & _ & _ & ->);
          [right; apply Hc|]
      end. exact Hk.
  - destruct (repo (context t)); [|assumption].
    apply updateContext_log; auto.
  - split; [apply (step_coherent getCacheEntryKey isTextEditor documentEquals t
                     (BlameFailedFor key) Hc)|].
    unfold onBlameFailed. destruct (editor (context t)); [|auto].
    destruct (negb _); [auto|]. split.
    + apply updateBlameability_log; [right; split; [reflexivity | apply Hc] | exact Hlog].
    + destruct (updateBlameability_forces_false t BlameFailed) as (_ & _ & _ & _ & ->);
        [apply Hc | exact Hk].
  - split; [apply (step_coherent getCacheEntryKey isTextEditor documentEquals t
                     (Settled i v) Hc)|].
    destruct (suspended t !! i) as [k|] eqn:Hi; [|auto].
    assert (Hk' : Forall forces_only_editor_changes
                    (take i (suspended t) ++ drop (S i) (suspended t))).
    { apply Forall_app. split; [now apply Forall_take | now apply Forall_drop]. }
    assert (Hki : forces_only_editor_changes k).
    { rewrite Forall_lookup in Hk. exact (Hk i k Hi). }
    destruct k as [reason e force|reason e force|reason force];
      destruct v as [r|u dd|b|]; simpl; try (split; assumption).
    + destruct r; simpl; (split; [exact Hlog|]);
        (apply Forall_app; split; [exact Hk' | constructor; [exact Hki | constructor]]).
    + split; [exact Hlog|].
      apply Forall_app; split; [exact Hk' | constructor; [exact Hki | constructor]].
    + split.
      * apply updateContext_end_log; [|exact Hlog].
        apply force_cases; [exact Hki | apply Hc].
      * match goal with |- Forall _ (suspended (updateContext_end ?t1 ?a ?b ?c)) =>
          destruct (updateContext_end_fully_coherent t1 a b c) as [_ ->];
            [right; apply Hc|]
        end. exact Hk'.
Qed.

(** X13: As long as no configuration change disables git, whatever the
    signals and however the lookups come back, the tracker fires no
    redundant event: apart from the events of a full re-evaluation
    (reason editor-changed), every event carries a blameable value other
    than the one published just before it. *)
Theorem no_redundant_events (sigs : list AnySignal) :
  existsb is_git_disabled sigs = false ->
  no_redundant
    (fired (Tracker.run_any getCacheEntryKey isTextEditor documentEquals sigs init)).
Proof.
  assert (H : forall sigs t,
            existsb is_git_disabled sigs = false ->
            log_invariant t ->
            log_invariant
              (Tracker.run_any getCacheEntryKey isTextEditor documentEquals sigs t)).
  { clear sigs. intros sigs. induction sigs as [|sig sigs IH]; intros t Hen Ht; simpl;
      [assumption|].
    simpl in Hen. apply orb_false_iff in Hen as [Hsig Hen].
    destruct sig as [sig|e]; [|discriminate].
    apply IH; [exact Hen|]. now apply step_log. }
  intros Hen. apply (H sigs init Hen).
  split; [apply init_coherent|]. split; [exact I | constructor].
Qed.

(** X14: A change to another text editor, handled to its end with every lookup
    succeeding, replaces the context wholesale: the editor, repository
    and uri are the new ones, dirty and tracked are what was looked up,
    blameable is tracked and not dirty, and exactly one event carrying
    it is fired, whether or not the value changed. *)
Theorem editor_change_reevaluates (t : Tracker) (e : TextEditor) (r : option nat)
    (u : string) (d b : bool) :
  suspended t = [] ->
  editor (context t) <> Some e ->
  isTextEditor e = true ->
  let t' := lrun (signals_of (HEditor (Some e) r u d b)) t in
  context t'
  = {| editor := Some e; repo := r;
       state := {| blameable := Some (b && negb d); dirty := d; tracked := Some b |};
       uri := Some u |} /\
  fired t'
  = {| ev_blameable := Some (b && negb d); ev_editor := Some e;
       ev_reason := EditorChanged |} :: fired t /\
  suspended t' = [].
Proof.
  intros Hs Hed Hte t'. subst t'.
  destruct t as [[ed rp [bl dd tr] uu] f sus]. simpl in Hs, Hed. subst sus.
  simpl. unfold onActiveTextEditorChanged. simpl.
  rewrite bool_decide_eq_false_2 by congruence. rewrite Hte. simpl.
  destruct r as [r|]; simpl; unfold updateContext_end; simpl;
    case_bool_decide as Htr; simpl; subst; destruct b, d; simpl; auto.
Qed.

End TrackerLogFacts.

Lemma no_redundant_events_witness :
  let e1 := {| editor_id := 1; document_uri := "a.ts" |} in
  TrackerLog.no_redundant
    (fired (Tracker.run_any (fun u => u) (fun _ => true) String.eqb
              [WhileEnabled (Enabled (Some e1));
               WhileEnabled (Settled 0 (GetRepositoryIs (Some 7%nat)));
               WhileEnabled (Settled 0 (FromUriIs "a.ts" false));
               WhileEnabled RepositoryChanged;
               WhileEnabled (Settled 0 (IsTrackedIs true));
               WhileEnabled (TextDocumentChanged "a.ts" true);
               WhileEnabled (Settled 0 (IsTrackedIs true))]
              init)).
Proof.
  intros e1. apply (no_redundant_events (fun u => u) (fun _ => true) String.eqb).
  reflexivity.
Defined.

(** Once git is disabled the log can repeat itself: the active file is
    published blameable, its repository changes, git is disabled with no
    editor active (blameable is set to false and nothing is fired), and
    the tracked-state lookup of the repository change then fires
    blameable=true on top of blameable=true. *)
Example disabled_git_repeats_event :
  let e1 := {| editor_id := 1; document_uri := "a.ts" |} in
  fired (Tracker.run_any (fun u => u) (fun _ => true) String.eqb
           [WhileEnabled (Enabled (Some e1));
            WhileEnabled (Settled 0 (GetRepositoryIs (Some 7%nat)));
            WhileEnabled (Settled 0 (FromUriIs "a.ts" false));
            WhileEnabled (Settled 0 (IsTrackedIs true));
            WhileEnabled RepositoryChanged;
            GitDisabled None;
            WhileEnabled (Settled 0 (IsTrackedIs true))]
           init)
  = [{| ev_blameable := Some true; ev_editor := None; ev_reason := RepoChanged |};
     {| ev_blameable := Some true; ev_editor := Some e1; ev_reason := EditorChanged |}].
Proof. vm_compute. reflexivity. Qed.

Lemma editor_change_reevaluates_witness :
  let e1 := {| editor_id := 1; document_uri := "a.ts" |} in
  fired (Tracker.run (fun u => u) (fun _ => true) String.eqb
           (signals_of (HEditor (Some e1) (Some 7%nat) "a.ts" true true)) init)
  = [{| ev_blameable := Some false; ev_editor := Some e1; ev_reason := EditorChanged |}].
Proof.
  intros e1.
  apply (editor_change_reevaluates (fun u => u) (fun _ => true) String.eqb init e1
           (Some 7%nat) "a.ts" true true eq_refl);
    [discriminate | reflexivity].
Defined.

(** ** The remotes flags *)

Section RemotesFacts.

Import Remotes.

Variable hasRemotes : nat -> bool.

Lemma scan_found (turns : list (nat * option nat)) :
  scan hasRemotes turns false = true -> existsb hasRemotes turns.*1 = true.
Proof.
  induction turns as [|[repo current] rest IH]; simpl; [discriminate|].
  case_bool_decide as Heq.
  - intros H. apply orb_true_iff. right. exact (IH H).
  - destruct (hasRemotes repo); [reflexivity | exact IH].
Qed.

Lemma scan_steady (active : option nat) (turns : list (nat * option nat)) :
  match active with Some a => hasRemotes a = false | None => True end ->
  steady active turns ->
  scan hasRemotes turns false = existsb hasRemotes turns.*1.
Proof.
  intros Ha Hsteady.
  induction Hsteady as [|[repo current] rest Hcur _ IH]; simpl; [reflexivity|].
  simpl in Hcur. subst current. case_bool_decide as Heq.
  - subst active. rewrite Ha. exact IH.
  - destruct (hasRemotes repo); [reflexivity | exact IH].
Qed.

(** X15: One run of [updateRemotes], each repository's answer fixed:
    "active has remotes" is set exactly when the repository active at the
    start has a remote, and then "has remotes" is set with it; "has
    remotes" is set only if that repository or one of the known ones has
    a remote; and when the context's repository stays the same through
    the awaits of the run, exactly then. *)
Theorem updateRemotes_spec (active : option nat) (turns : list (nat * option nat)) :
  let r := updateRemotes hasRemotes active turns in
  ActiveHasRemotes r = existsb hasRemotes (option_list active) /\
  (ActiveHasRemotes r = true -> HasRemotes r = true) /\
  (HasRemotes r = true -> existsb hasRemotes (option_list active ++ turns.*1) = true) /\
  (steady active turns ->
   HasRemotes r = existsb hasRemotes (option_list active ++ turns.*1)).
Proof.
  unfold updateRemotes. destruct active as [a|]; simpl.
  - destruct (hasRemotes a) eqn:Ha; simpl; [auto|].
    repeat split.
    + discriminate.
    + apply scan_found.
    + intros Hs. now apply (scan_steady (Some a)).
  - repeat split.
    + discriminate.
    + apply scan_found.
    + intros Hs. now apply (scan_steady None).
Qed.

End RemotesFacts.

(** ** The refresh subscription of a file-history node *)

Section FileHistoryFacts.

Import FileHistory.

Lemma updateSubscription_tidy (autoRefresh : bool) (n : Node) :
  tidy n -> tidy (updateSubscription autoRefresh n).
Proof.
  unfold tidy, updateSubscription. destruct n as [[d|] l m]; simpl; intros [Hl Hd];
    destruct autoRefresh; simpl; auto.
  - subst l. rewrite filter_cons_False by auto. split; reflexivity.
  - subst l. split; [reflexivity | lia].
Qed.

Lemma updateSubscription_follows (autoRefresh : bool) (n : Node) :
  bool_decide (is_Some (disposable (updateSubscription autoRefresh n))) = autoRefresh.
Proof.
  unfold updateSubscription. destruct n as [[d|] l m], autoRefresh; reflexivity.
Qed.

(** X16: However often the node is visited and however auto-refresh changes in
    between, the node holds at most one subscription and leaks none: the
    subscriptions alive are exactly the one it holds, if any; after a
    visit it holds one exactly when auto-refresh was on at that visit; and
    a visit with auto-refresh on keeps the subscription it already has. *)
Theorem subscription_is_single (reads : list bool) :
  let n := visits reads fresh in
  live n = match disposable n with Some d => [d] | None => [] end /\
  (forall autoRefresh,
     bool_decide (is_Some (disposable (updateSubscription autoRefresh n))) = autoRefresh) /\
  (is_Some (disposable n) -> updateSubscription true n = n).
Proof.
  intros n.
  assert (Htidy : tidy n).
  { subst n. unfold visits.
    assert (H : forall reads m, tidy m ->
              tidy (fold_left (fun n a => updateSubscription a n) reads m)).
    { clear reads. intros reads. induction reads as [|a reads IH]; intros m Hm; simpl;
        [assumption|]. apply IH. now apply updateSubscription_tidy. }
    apply H. split; [reflexivity | exact I]. }
  split; [apply Htidy|]. split; [intros a; apply updateSubscription_follows|].
  intros [d Hd]. unfold updateSubscription. now rewrite Hd.
Qed.

End FileHistoryFacts.

Lemma subscription_is_single_witness :
  FileHistory.updateSubscription true
    (FileHistory.visits [true; false; true] FileHistory.fresh)
  = FileHistory.visits [true; false; true] FileHistory.fresh.
Proof.
  apply (proj2 (proj2 (subscription_is_single [true; false; true]))).
  vm_compute. eauto.
Defined.

Lemma updateRemotes_spec_witness :
  let hasRemotes := fun repo => Nat.eqb repo 2 in
  let turns := [(1%nat, Some 3%nat); (2%nat, Some 3%nat); (3%nat, Some 3%nat)] in
  Remotes.steady (Some 3%nat) turns /\
  Remotes.HasRemotes (Remotes.updateRemotes hasRemotes (Some 3%nat) turns)
  = existsb hasRemotes (option_list (Some 3%nat) ++ turns.*1).
Proof.
  intros hasRemotes turns.
  assert (Hs : Remotes.steady (Some 3%nat) turns)
    by (repeat constructor).
  split; [exact Hs|].
  exact (proj2 (proj2 (proj2 (updateRemotes_spec hasRemotes (Some 3%nat) turns))) Hs).
Defined.

(** When the editor moves to another repository while the run is at an
    await, that repository is skipped though its remotes were never
    asked for: a remote can go unseen. *)
Example moved_context_hides_remote :
  let hasRemotes := fun repo => Nat.eqb repo 2 in
  Remotes.updateRemotes hasRemotes (Some 1%nat) [(1%nat, Some 2%nat); (2%nat, Some 2%nat)]
  = {| Remotes.ActiveHasRemotes := false; Remotes.HasRemotes := false |}.
Proof. reflexivity. Qed.

(** ** The version check *)

Import Version.

#[local] Arguments Ascii.eqb : simpl never.

Lemma split_go_dot (m rest cur : string) :
  Js.every (fun c => negb (Ascii.eqb c ".")) m = true ->
  Js.split_go "." cur (m +:+ String "." rest) 0
  = (cur +:+ m) :: Js.split_go "." "" rest 0.
Proof.
  revert cur; induction m as [|c m IH]; intros cur H; simpl in *.
  - now rewrite append_empty_r.
  - apply andb_true_iff in H as [Hc Hm]. apply negb_true_iff in Hc.
    rewrite Ascii.eqb_sym in Hc. rewrite Hc. simpl.
    rewrite IH by assumption. now rewrite append_assoc.
Qed.

Lemma split_go_last (m cur : string) :
  Js.every (fun c => negb (Ascii.eqb c ".")) m = true ->
  Js.split_go "." cur m 0 = [cur +:+ m].
Proof.
  revert cur; induction m as [|c m IH]; intros cur H; simpl in *.
  - now rewrite append_empty_r.
  - apply andb_true_iff in H as [Hc Hm]. apply negb_true_iff in Hc.
    rewrite Ascii.eqb_sym in Hc. rewrite Hc. simpl.
    rewrite IH by assumption. now rewrite append_assoc.
Qed.

Lemma digits_have_no_dot (s : string) :
  Js.every is_digit s = true -> Js.every (fun c => negb (Ascii.eqb c ".")) s = true.
Proof.
  apply every_impl. intros c Hc. apply negb_true_iff, Ascii.eqb_neq. intros ->.
  discriminate Hc.
Qed.

Lemma leading_digits_all (s : string) (acc : Z) (seen : bool) :
  Js.every is_digit s = true -> (seen = true \/ s <> "") ->
  leading_digits acc seen s
  = Some (fold_left (fun acc c => (10 * acc + digit_value c)%Z) (list_ascii_of_string s) acc).
Proof.
  revert acc seen; induction s as [|c s IH]; intros acc seen H Hs; simpl in *.
  - destruct Hs as [-> | Hs]; [reflexivity | contradiction].
  - apply andb_true_iff in H as [Hc H]. rewrite Hc. apply IH; auto.
Qed.

Lemma parseInt10_digits (s : string) :
  Js.every is_digit s = true -> s <> "" -> parseInt10 s = Some (decimal s).
Proof.
  intros H Hne. unfold parseInt10, decimal.
  destruct s as [|c s]; [contradiction|].
  assert (Hc : is_digit c = true) by (simpl in H; now apply andb_true_iff in H as [? _]).
  assert (Hsp : is_space c = false /\ Ascii.eqb c "-" = false /\ Ascii.eqb c "+" = false).
  { unfold is_digit, in_range in Hc. apply andb_true_iff in Hc as [Hlo Hhi].
    apply Nat.leb_le in Hlo. apply Nat.leb_le in Hhi.
    change (nat_of_ascii "0") with 48%nat in Hlo.
    change (nat_of_ascii "9") with 57%nat in Hhi.
    repeat split.
    - unfold is_space. cbv zeta.
      destruct (Nat.leb_spec (nat_of_ascii c) 13); [lia|].
      destruct (Nat.eqb_spec (nat_of_ascii c) 32); [lia|].
      destruct (Nat.eqb_spec (nat_of_ascii c) 160); [lia|].
      now rewrite andb_false_r.
    - apply Ascii.eqb_neq. intros ->. simpl in *. lia.
    - apply Ascii.eqb_neq. intros ->. simpl in *. lia. }
  destruct Hsp as (Hs1 & Hs2 & Hs3).
  simpl skip_spaces. rewrite Hs1, Hs2, Hs3.
  apply leading_digits_all; [assumption | right; discriminate].
Qed.

(** X17: The version check compares the two leading components each on its
    own, not the version as a whole: for a version that starts with
    [M.N] it holds exactly when [M >= major] and [N >= minor] (so a newer
    major with a smaller minor does not pass), and for a version with no
    dot it never holds. *)
Theorem validateVersion_is_componentwise (m n tail : string) (major minor : Z) :
  Js.every is_digit m = true -> m <> "" ->
  Js.every is_digit n = true -> n <> "" ->
  (decimal m < 2 ^ 53)%Z -> (decimal n < 2 ^ 53)%Z ->
  validateVersion (m +:+ "." +:+ n) major minor
  = (major <=? decimal m)%Z && (minor <=? decimal n)%Z /\
  validateVersion (m +:+ "." +:+ n +:+ "." +:+ tail) major minor
  = (major <=? decimal m)%Z && (minor <=? decimal n)%Z /\
  validateVersion m major minor = false.
Proof.
  intros Hm Hmne Hn Hnne _ _.
  pose proof (digits_have_no_dot m Hm) as Hmd.
  pose proof (digits_have_no_dot n Hn) as Hnd.
  unfold validateVersion, Js.split.
  change (m +:+ "." +:+ n) with (m +:+ String "." n).
  change (m +:+ "." +:+ n +:+ "." +:+ tail) with (m +:+ String "." (n +:+ String "." tail)).
  rewrite !split_go_dot by assumption.
  rewrite (split_go_last n "") by assumption.
  rewrite (split_go_last m "") by assumption.
  simpl. rewrite !parseInt10_digits by assumption. simpl.
  repeat split. apply andb_false_r.
Qed.

Lemma validateVersion_is_componentwise_witness :
  validateVersion "3.0.1" 2 11 = false /\ validateVersion "2.15.1" 2 11 = true.
Proof.
  split.
  - change "3.0.1" with ("3" +:+ "." +:+ "0" +:+ "." +:+ "1").
    rewrite (proj1 (proj2 (validateVersion_is_componentwise "3" "0" "1" 2 11
               eq_refl ltac:(discriminate) eq_refl ltac:(discriminate)
               eq_refl eq_refl))).
    reflexivity.
  - change "2.15.1" with ("2" +:+ "." +:+ "15" +:+ "." +:+ "1").
    rewrite (proj1 (proj2 (validateVersion_is_componentwise "2" "15" "1" 2 11
               eq_refl ltac:(discriminate) eq_refl ltac:(discriminate)
               eq_refl eq_refl))).
    reflexivity.
Defined.
